(** * DHCP options (src/net/dhcpopts.c): a shallow embedding and its properties

    The C file scans raw DHCP option data held in memory.  The embedding keeps
    the memory as a total map from addresses to bytes, as C has it: a read
    outside the data block is not stopped by anything, it simply returns
    whatever byte lies there.  The scanner, [find_dhcp_option_raw] with
    [dhcp_option_len], runs in a small monad that records the addresses it
    reads, so that statements about the bounds of its accesses can be made
    and checked. *)

From Stdlib Require Import ZArith List Lia Bool.
From Stdlib.Strings Require Import Byte.
Import ListNotations.
Open Scope Z_scope.

(** ** Machine integers *)

(** The two data models gPXE is built for.  [size_t], [ssize_t] and
    [unsigned long] have 32 bits on the first and 64 bits on the second;
    [unsigned int] has 32 bits on both. *)
Inductive data_model := ILP32 | LP64.

Definition long_bits (dm : data_model) : Z :=
  match dm with ILP32 => 32 | LP64 => 64 end.

Definition SIZE_MODULUS (dm : data_model) : Z := 2 ^ long_bits dm.
Definition SSIZE_MAX (dm : data_model) : Z := 2 ^ (long_bits dm - 1) - 1.

(** Conversion to [size_t] / [unsigned long]: wrap modulo [2^w]. *)
Definition to_size (dm : data_model) (x : Z) : Z := x mod SIZE_MODULUS dm.

(** Conversion to [ssize_t]: wrap into [-2^(w-1), 2^(w-1)). *)
Definition to_ssize (dm : data_model) (x : Z) : Z :=
  (x + 2 ^ (long_bits dm - 1)) mod SIZE_MODULUS dm - 2 ^ (long_bits dm - 1).

(** ** Memory *)

Definition addr := Z.
Definition memory := addr -> byte.

(** A pointer result: [NULL] or the address of an object. *)
Definition ptr := option addr.
Definition NULL : ptr := None.

(** The value of the [uint8_t] stored at an address. *)
Definition load (m : memory) (a : addr) : Z := Z.of_N (Byte.to_N (m a)).

Definition byte_of_Z (z : Z) : byte :=
  match Byte.of_N (Z.to_N (z mod 256)) with
  | Some b => b
  | None => x00
  end.

(** Store one byte. *)
Definition store (m : memory) (a : addr) (v : Z) : memory :=
  fun a' => if a' =? a then byte_of_Z v else m a'.

(** The memory that holds the bytes [bs] from address [base] on and zero
    everywhere else. *)
Definition mem_of_list (base : addr) (bs : list Z) : memory :=
  fun a =>
    if a <? base then x00
    else byte_of_Z (nth (Z.to_nat (a - base)) bs 0).

(** ** Reads with an access log *)

Definition Rd (A : Type) : Type := memory -> A * list addr.

Definition ret {A} (x : A) : Rd A := fun _ => (x, []).

Definition bind {A B} (c : Rd A) (f : A -> Rd B) : Rd B :=
  fun m =>
    let (a, t1) := c m in
    let (b, t2) := f a m in
    (b, t1 ++ t2).

Definition read (a : addr) : Rd Z := fun m => (load m a, [a]).

Notation "x <- c ;; k" := (bind c (fun x => k))
  (at level 61, c at next level, right associativity).

Definition result {A} (r : A * list addr) : A := fst r.
Definition reads {A} (r : A * list addr) : list addr := snd r.

(** ** Option records *)

(** Modelled from the spec: the layout of [struct dhcp_option], declared in
    gpxe/dhcp.h, which is not part of the sources at hand.  A record is a
    view of the wire format [[tag:1][len:1][payload]]: the fields [tag],
    [len] and [data] lie at the offsets 0, 1 and 2. *)
Definition OFF_TAG : Z := 0.
Definition OFF_LEN : Z := 1.
Definition OFF_DATA : Z := 2.

(** Modelled from the spec: the reserved tags [DHCP_PAD] and [DHCP_END] of
    gpxe/dhcp.h, 0 and 255. *)
Definition DHCP_PAD : Z := 0.
Definition DHCP_END : Z := 255.

(** Modelled from the spec: the macros [DHCP_ENCAP_OPT], [DHCP_ENCAPSULATOR]
    and [DHCP_ENCAPSULATED] of gpxe/dhcp.h, which is not part of the sources
    at hand.  The encapsulator occupies the high-order position and the
    8-bit sub-tag the low-order position of the composite tag. *)
Definition DHCP_ENCAP_OPT (encapsulator encapsulated : Z) : Z :=
  Z.lor (Z.shiftl encapsulator 8) encapsulated.
Definition DHCP_ENCAPSULATOR (encap_opt : Z) : Z := Z.shiftr encap_opt 8.
Definition DHCP_ENCAPSULATED (encap_opt : Z) : Z := Z.land encap_opt 255.

(** The three assertions at the head of [find_dhcp_option_raw].  gPXE's
    [assert] reports and carries on, so they do not alter the control flow;
    they say which tags a caller may pass. *)
Definition valid_tag (tag : Z) : Prop :=
  tag <> DHCP_PAD /\ tag <> DHCP_END /\ DHCP_ENCAPSULATOR tag <> DHCP_END.

(** ** dhcp_num_option *)

(** One turn of the loop body, [value = ( ( value << 8 ) | *data )], in
    [unsigned long] arithmetic. *)
Definition num_step (dm : data_model) (value b : Z) : Z :=
  Z.lor (to_size dm (Z.shiftl value 8)) b.

(** The [for] loop: [n] payload bytes are left, [data] points at the next. *)
Fixpoint num_loop (dm : data_model) (n : nat) (m : memory) (data : addr)
    (value : Z) : Z :=
  match n with
  | O => value
  | S n' => num_loop dm n' m (data + 1) (num_step dm value (load m data))
  end.

Definition dhcp_num_option (dm : data_model) (m : memory) (opt : ptr) : Z :=
  match opt with
  | None => 0
  | Some o =>
      num_loop dm (Z.to_nat (load m (o + OFF_LEN))) m (o + OFF_DATA) 0
  end.

(** ** dhcp_option_len *)

Definition dhcp_option_len (opt : addr) : Rd Z :=
  t <- read (opt + OFF_TAG) ;;
  if t =? DHCP_END then ret 1
  else
    t' <- read (opt + OFF_TAG) ;;
    if t' =? DHCP_PAD then ret 1
    else
      l <- read (opt + OFF_LEN) ;;
      ret (l + 2).

(** ** find_dhcp_option_raw *)

(** What one turn of the [while] loop ends in. *)
Inductive step_result :=
| Return (r : ptr)
| Continue (opt : addr) (remaining : Z)
| Recurse (tag : Z) (data : addr) (len : Z).

(** One turn of the loop, from its test on. *)
Definition scan_step (dm : data_model) (tag : Z) (opt : addr)
    (remaining : Z) : Rd step_result :=
  if remaining =? 0 then ret (Return NULL)
  else
    t <- read (opt + OFF_TAG) ;;
    if t =? DHCP_END then ret (Return NULL)
    else
      option_len <- dhcp_option_len opt ;;
      let remaining := to_ssize dm (remaining - option_len) in
      if remaining <? 0 then ret (Return NULL)
      else
        t <- read (opt + OFF_TAG) ;;
        if t =? tag then ret (Return (Some opt))
        else if DHCP_ENCAPSULATOR tag =? 0
        then ret (Continue (opt + option_len) remaining)
        else
          t <- read (opt + OFF_TAG) ;;
          if t =? DHCP_ENCAPSULATOR tag
          then
            l <- read (opt + OFF_LEN) ;;
            ret (Recurse (DHCP_ENCAPSULATED tag) (opt + OFF_DATA) l)
          else ret (Continue (opt + option_len) remaining).

(** The loop.  The recursive call of the C function is a tail call: it
    starts the loop again on the payload with the encapsulated tag, and its
    result is returned as it is.  [None] means that the fuel ran out. *)
Fixpoint scan_loop (dm : data_model) (fuel : nat) (tag : Z) (opt : addr)
    (remaining : Z) : Rd (option ptr) :=
  match fuel with
  | O => ret None
  | S fuel' =>
      r <- scan_step dm tag opt remaining ;;
      match r with
      | Return p => ret (Some p)
      | Continue opt' remaining' =>
          scan_loop dm fuel' tag opt' remaining'
      | Recurse tag' data len =>
          scan_loop dm fuel' tag' data (to_ssize dm len)
      end
  end.

Definition find_dhcp_option_raw (dm : data_model) (fuel : nat) (tag : Z)
    (data : addr) (len : Z) : Rd (option ptr) :=
  scan_loop dm fuel tag data (to_ssize dm len).

(** The fuel that a data block of [len] bytes needs. *)
Definition scan_fuel (len : Z) : nat := S (Z.to_nat len).


(** The loop seen as a machine: its states and the move from one turn to the
    next. *)
Record scan_state := mk_scan_state {
  s_tag : Z;
  s_option : addr;
  s_remaining : Z
}.

(** The state in which [find_dhcp_option_raw] enters its loop. *)
Definition scan_init (dm : data_model) (tag : Z) (data : addr) (len : Z)
    : scan_state :=
  mk_scan_state tag data (to_ssize dm len).

Definition step_at (dm : data_model) (m : memory) (s : scan_state)
    : step_result :=
  result (scan_step dm (s_tag s) (s_option s) (s_remaining s) m).

Definition next_state (dm : data_model) (m : memory) (s : scan_state)
    : option scan_state :=
  match step_at dm m s with
  | Return _ => None
  | Continue opt' remaining' => Some (mk_scan_state (s_tag s) opt' remaining')
  | Recurse tag' data len => Some (scan_init dm tag' data len)
  end.

Inductive scan_reaches (dm : data_model) (m : memory)
    : scan_state -> scan_state -> Prop :=
| reaches_here : forall s, scan_reaches dm m s s
| reaches_next : forall s s' s'',
    next_state dm m s = Some s' ->
    scan_reaches dm m s' s'' ->
    scan_reaches dm m s s''.

(** The on-wire length of the record at [opt], as [dhcp_option_len] computes
    it from the bytes it finds. *)
Definition option_len_at (m : memory) (opt : addr) : Z :=
  if (load m (opt + OFF_TAG) =? DHCP_END)
     || (load m (opt + OFF_TAG) =? DHCP_PAD)
  then 1
  else load m (opt + OFF_LEN) + 2.

(** ** Option blocks and their registry *)

Module dhcp_option_block.
Record t := mk { data : addr; len : Z }.
End dhcp_option_block.

(** Modelled from the spec: [LIST_HEAD], [list_add], [list_del] and
    [list_for_each_entry] of gpxe/list.h, which is not part of the sources at
    hand.  The registry is the sequence of the registered blocks' addresses
    in traversal order; [list_add] puts the new entry at the front,
    [list_del] takes the entry out, and [list_for_each_entry] visits the
    entries from the front. *)
Definition list_head := list addr.
Definition list_add (new : addr) (head : list_head) : list_head :=
  new :: head.
Definition list_del (entry : addr) (head : list_head) : list_head :=
  filter (fun e => negb (e =? entry)) head.

(** The state the functions of the file work on: the bytes of memory, the
    fields of the [struct dhcp_option_block] objects, and the list of
    registered blocks. *)
Record state := mk_state {
  mem : memory;
  blocks : addr -> dhcp_option_block.t;
  option_blocks : list_head
}.

(** The body of [list_for_each_entry] in [find_dhcp_option]. *)
Fixpoint find_in_blocks (dm : data_model) (fuel : nat) (tag : Z)
    (m : memory) (blks : addr -> dhcp_option_block.t) (l : list_head)
    : option ptr :=
  match l with
  | [] => Some NULL
  | options :: rest =>
      match result (find_dhcp_option_raw dm fuel tag
                      (dhcp_option_block.data (blks options))
                      (dhcp_option_block.len (blks options)) m) with
      | None => None
      | Some (Some o) => Some (Some o)
      | Some None => find_in_blocks dm fuel tag m blks rest
      end
  end.

Definition find_dhcp_option (dm : data_model) (fuel : nat) (tag : Z)
    (st : state) : option ptr :=
  find_in_blocks dm fuel tag (mem st) (blocks st) (option_blocks st).

Definition register_dhcp_options (options : addr) (st : state) : state :=
  mk_state (mem st) (blocks st) (list_add options (option_blocks st)).

Definition unregister_dhcp_options (options : addr) (st : state) : state :=
  mk_state (mem st) (blocks st) (list_del options (option_blocks st)).

(** The bytes of a value of [w] bits, the least significant first, as the
    targets of gPXE, i386 and x86_64, hold it in memory. *)
Definition word_bytes (dm : data_model) (v : Z) : list Z :=
  map (fun i => Z.land (Z.shiftr v (8 * Z.of_nat i)) 255)
      (seq 0 (Z.to_nat (long_bits dm / 8))).

Fixpoint store_bytes (m : memory) (a : addr) (bs : list Z) : memory :=
  match bs with
  | [] => m
  | b :: bs' => store_bytes (store m a b) (a + 1) bs'
  end.

(** Store a pointer or a [size_t]. *)
Definition store_word (dm : data_model) (m : memory) (a : addr) (v : Z)
    : memory :=
  store_bytes m a (word_bytes dm v).

(** [alloc_dhcp_options].  [sizeof_options] is [sizeof ( *options )],
    [offsetof_data] and [offsetof_len] are the offsets of the fields [data]
    and [len] in [struct dhcp_option_block], which gpxe/dhcp.h declares and
    the sources at hand do not show, and [malloc] is the allocator's answer
    for a size: [NULL] or the address of the new object.  The two fields are
    kept in [blocks], where [find_dhcp_option] reads them, and the bytes
    they occupy in the new object are stored in the memory as well. *)
Definition alloc_dhcp_options (dm : data_model)
    (sizeof_options offsetof_data offsetof_len : Z)
    (malloc : Z -> ptr) (len : Z) (st : state) : ptr * state :=
  match malloc (to_size dm (sizeof_options + len)) with
  | None => (NULL, st)
  | Some options =>
      let data := options + sizeof_options in
      let blks := fun a =>
        if a =? options then dhcp_option_block.mk data len
        else blocks st a in
      let m1 := store_word dm (mem st) (options + offsetof_data) data in
      let m2 := store_word dm m1 (options + offsetof_len) len in
      let m := if len =? 0 then m2
               else store m2 (data + OFF_TAG) DHCP_END in
      (Some options, mk_state m blks (option_blocks st))
  end.

(** [free_dhcp_options] hands the block back to the allocator; nothing of
    the state modelled here changes. *)
Definition free_dhcp_options (options : addr) (st : state) : state := st.

(** What the scan of one block gives, as [find_dhcp_option] calls it. *)
Definition scan_block (dm : data_model) (fuel : nat) (tag : Z) (st : state)
    (options : addr) : option ptr :=
  result (find_dhcp_option_raw dm fuel tag
            (dhcp_option_block.data (blocks st options))
            (dhcp_option_block.len (blocks st options)) (mem st)).

(** ** The payload of a record, and the numeric value the spec describes *)

(** The [len] payload bytes of the record at [opt], in order. *)
Definition payload (m : memory) (opt : addr) : list Z :=
  map (fun i => load m (opt + OFF_DATA + Z.of_nat i))
      (seq 0 (Z.to_nat (load m (opt + OFF_LEN)))).

(** The spec's wording of the numeric value: start at 0 and, for each payload
    byte in order, [value = (value << 8) | byte], kept in the fixed-width
    unsigned accumulator. *)
Definition numeric_value_spec (dm : data_model) (bytes : list Z) : Z :=
  fold_left (fun value b => to_size dm (Z.lor (Z.shiftl value 8) b)) bytes 0.

(** The big-endian number that a byte string denotes, without any bound. *)
Definition be_value (bytes : list Z) : Z :=
  fold_left (fun value b => value * 256 + b) bytes 0.

(** The outcome of a turn, written without the access log. *)
Definition step_outcome (dm : data_model) (m : memory) (tag : Z) (opt : addr)
    (remaining : Z) : step_result :=
  if remaining =? 0 then Return NULL
  else if load m (opt + OFF_TAG) =? DHCP_END then Return NULL
  else if to_ssize dm (remaining - option_len_at m opt) <? 0 then Return NULL
  else if load m (opt + OFF_TAG) =? tag then Return (Some opt)
  else if negb (DHCP_ENCAPSULATOR tag =? 0)
          && (load m (opt + OFF_TAG) =? DHCP_ENCAPSULATOR tag)
  then Recurse (DHCP_ENCAPSULATED tag) (opt + OFF_DATA) (load m (opt + OFF_LEN))
  else Continue (opt + option_len_at m opt)
                (to_ssize dm (remaining - option_len_at m opt)).

(** The result of the loop started in a state. *)
Definition run (dm : data_model) (fuel : nat) (s : scan_state) (m : memory)
    : option ptr :=
  result (scan_loop dm fuel (s_tag s) (s_option s) (s_remaining s) m).

(** ** Sample data blocks *)

(** One record with tag 53 and payload [2], then the end marker. *)
Definition sample_block : memory := mem_of_list 100 [53; 1; 2; 255].

(** A data block of one byte: the tag of a record that is cut off. *)
Definition cut_block : memory := mem_of_list 100 [53].

(** A record with tag 43 whose payload is a record with tag 1 and an empty
    payload. *)
Definition encap_block : memory := mem_of_list 100 [43; 2; 1; 0].

(** An end marker in front of a record with tag 53. *)
Definition hidden_block : memory := mem_of_list 100 [255; 53; 1; 2].

(** A record with tag 53, then a record with tag 54 that declares 200
    payload bytes. *)
Definition overrun_block : memory := mem_of_list 100 [53; 1; 2; 54; 200].

(** Two blocks, at the addresses 1 and 2, that both hold a record with
    tag 53: the data of the first is at 100 and carries the value 2, the
    data of the second is at 200 and carries the value 7.  None is
    registered. *)
Definition two_blocks : state :=
  mk_state
    (fun a => if a <? 200 then mem_of_list 100 [53; 1; 2; 255] a
              else mem_of_list 200 [53; 1; 7; 255] a)
    (fun b => if b =? 1 then dhcp_option_block.mk 100 4
              else dhcp_option_block.mk 200 4)
    [].

(** An allocator that places every object at 1000, and one that fails. *)
Definition malloc_at_1000 (size : Z) : ptr := Some 1000.
Definition malloc_fails (size : Z) : ptr := NULL.

(** ** The walk over the records of a data block *)

(** The position of the [k]-th record when the records are walked from
    [data] on, each one as long as [dhcp_option_len] says. *)
Fixpoint record_at (m : memory) (data : addr) (k : nat) : addr :=
  match k with
  | O => data
  | S k' => record_at m (data + option_len_at m data) k'
  end.

(** A tag byte over which the loop steps when it looks for [tag]: it is not
    the end marker, not the tag looked for and not its encapsulator. *)
Definition skipped (tag t : Z) : Prop :=
  t <> DHCP_END /\ t <> tag /\
  (DHCP_ENCAPSULATOR tag = 0 \/ t <> DHCP_ENCAPSULATOR tag).

(** Two memories that hold the same bytes from [a] on, [n] of them. *)
Definition agree (m m' : memory) (a : addr) (n : Z) : Prop :=
  forall x : addr, a <= x < a + n -> load m x = load m' x.

(** ** Records as a sender lays them out

    The code only reads option data.  To say what it finds in data that is
    laid out as the wire format prescribes, the records and their bytes are
    written down here: [PAD] is one byte, every other record is its tag, the
    number of payload bytes and the payload. *)
Inductive wire_record :=
| Pad
| Opt (tag : Z) (pl : list Z).

Definition record_tag (r : wire_record) : Z :=
  match r with
  | Pad => DHCP_PAD
  | Opt t _ => t
  end.

Definition encode_record (r : wire_record) : list Z :=
  match r with
  | Pad => [DHCP_PAD]
  | Opt t pl => t :: Z.of_nat (length pl) :: pl
  end.

Definition encode (rs : list wire_record) : list Z :=
  flat_map encode_record rs.

(** A record that the wire format can carry: a tag other than the two
    reserved ones, at most 255 payload bytes, and bytes for payload. *)
Definition wf_record (r : wire_record) : Prop :=
  match r with
  | Pad => True
  | Opt t pl =>
      0 < t < 255 /\ (length pl <= 255)%nat /\
      Forall (fun b => 0 <= b < 256) pl
  end.

(** The memory holds the bytes [bs] from address [a] on. *)
Definition mem_holds (m : memory) (a : addr) (bs : list Z) : bool :=
  forallb (fun i => load m (a + Z.of_nat i) =? nth i bs 0)
          (seq 0 (length bs)).

(** Two padding bytes, a record with tag 53, a record with tag 60, and the
    end marker. *)
Definition padded_block : memory :=
  mem_of_list 100 [0; 0; 53; 1; 2; 60; 2; 1; 2; 255].

(** A padding byte, a record with tag 43 whose payload holds the records
    with the tags 7 and 1, a record with tag 1, and the end marker. *)
Definition nested_block : memory :=
  mem_of_list 100 [0; 43; 6; 7; 1; 9; 1; 1; 5; 1; 1; 8; 255].

(** A record with tag 43 whose payload holds a record with tag 7, then a
    record with tag 8, and the end marker. *)
Definition late_block : memory :=
  mem_of_list 100 [43; 3; 7; 1; 9; 8; 1; 5; 255].

(** A record with tag 60 and no payload, then a record with tag 53 whose
    payload ends with the block. *)
Definition boundary_block : memory := mem_of_list 100 [60; 0; 53; 1; 2].

(** The state [two_blocks] with both blocks registered, the second one
    last. *)
Definition two_registered : state :=
  register_dhcp_options 2 (register_dhcp_options 1 two_blocks).

(** * Properties *)

(** ** Machine integers *)

Lemma long_bits_ge (dm : data_model) : 32 <= long_bits dm.
Proof. destruct dm; simpl; lia. Qed.

Lemma half_modulus (dm : data_model) :
  SIZE_MODULUS dm = 2 * 2 ^ (long_bits dm - 1).
Proof. destruct dm; reflexivity. Qed.

Lemma half_modulus_large (dm : data_model) :
  2 ^ 31 <= 2 ^ (long_bits dm - 1).
Proof.
  apply Z.pow_le_mono_r; [lia|]. pose proof (long_bits_ge dm). lia.
Qed.

Lemma SSIZE_MAX_large (dm : data_model) : 2147483647 <= SSIZE_MAX dm.
Proof.
  unfold SSIZE_MAX. pose proof (half_modulus_large dm).
  change (2 ^ 31) with 2147483648 in H. lia.
Qed.

Lemma to_ssize_id (dm : data_model) (x : Z) :
  - SSIZE_MAX dm - 1 <= x <= SSIZE_MAX dm -> to_ssize dm x = x.
Proof.
  unfold to_ssize, SSIZE_MAX. intros Hx.
  rewrite half_modulus.
  rewrite Z.mod_small; lia.
Qed.

Lemma to_ssize_range (dm : data_model) (x : Z) :
  - SSIZE_MAX dm - 1 <= to_ssize dm x <= SSIZE_MAX dm.
Proof.
  unfold to_ssize, SSIZE_MAX.
  pose proof (half_modulus dm) as Hm.
  pose proof (half_modulus_large dm) as Hl.
  assert (0 < SIZE_MODULUS dm) by lia.
  pose proof (Z.mod_pos_bound (x + 2 ^ (long_bits dm - 1)) (SIZE_MODULUS dm)).
  lia.
Qed.

(** Rewrites a conversion to [ssize_t] of a value that is small enough not
    to wrap. *)
Tactic Notation "ssize_small" :=
  rewrite to_ssize_id
    by (match goal with
        | |- context [SSIZE_MAX ?dm] => pose proof (SSIZE_MAX_large dm)
        end; lia).
Tactic Notation "ssize_small" "in" hyp(H) :=
  rewrite to_ssize_id in H
    by (match goal with
        | |- context [SSIZE_MAX ?dm] => pose proof (SSIZE_MAX_large dm)
        end; lia).

(** A size that is not zero does not become zero as an [ssize_t]. *)
Lemma to_ssize_nonzero (dm : data_model) (x : Z) :
  0 < x < SIZE_MODULUS dm -> to_ssize dm x <> 0.
Proof.
  intros Hx Hz. unfold to_ssize in Hz.
  pose proof (half_modulus dm) as Hm.
  pose proof (half_modulus_large dm) as Hl.
  destruct (Z_lt_le_dec x (2 ^ (long_bits dm - 1))) as [Hlt|Hge].
  - rewrite Z.mod_small in Hz by lia. lia.
  - replace (x + 2 ^ (long_bits dm - 1))
      with (x - 2 ^ (long_bits dm - 1) + 1 * SIZE_MODULUS dm) in Hz by lia.
    rewrite Z.mod_add in Hz by lia.
    rewrite Z.mod_small in Hz by lia. lia.
Qed.

(** ** Memory *)

Lemma load_range (m : memory) (a : addr) : 0 <= load m a < 256.
Proof.
  unfold load. pose proof (Byte.to_N_bounded (m a)). lia.
Qed.

Lemma byte_of_Z_value (z : Z) :
  0 <= z < 256 -> Z.of_N (Byte.to_N (byte_of_Z z)) = z.
Proof.
  intros Hz. unfold byte_of_Z.
  rewrite Z.mod_small by lia.
  destruct (Byte.of_N (Z.to_N z)) as [b|] eqn:Hb.
  - apply Byte.to_of_N in Hb. rewrite Hb. lia.
  - apply Byte.of_N_None_iff in Hb. lia.
Qed.

Lemma load_store_same (m : memory) (a : addr) (v : Z) :
  0 <= v < 256 -> load (store m a v) a = v.
Proof.
  intros Hv. unfold load, store. rewrite Z.eqb_refl.
  now apply byte_of_Z_value.
Qed.

Lemma load_store_other (m : memory) (a a' : addr) (v : Z) :
  a' <> a -> load (store m a v) a' = load m a'.
Proof.
  intros Hne. unfold load, store.
  destruct (Z.eqb_spec a' a); [contradiction|reflexivity].
Qed.

(** ** One turn of the loop *)

Lemma dhcp_option_len_result (m : memory) (opt : addr) :
  result (dhcp_option_len opt m) = option_len_at m opt.
Proof.
  unfold dhcp_option_len, option_len_at, bind, read, ret, result.
  destruct (load m (opt + OFF_TAG) =? DHCP_END); simpl; [reflexivity|].
  destruct (load m (opt + OFF_TAG) =? DHCP_PAD); reflexivity.
Qed.

Lemma option_len_at_range (m : memory) (opt : addr) :
  1 <= option_len_at m opt <= 257.
Proof.
  unfold option_len_at. pose proof (load_range m (opt + OFF_LEN)).
  destruct (_ || _); lia.
Qed.

(** [dhcp_option_len] reads the tag byte, and the length byte when the tag is
    neither [DHCP_END] nor [DHCP_PAD]. *)
Lemma dhcp_option_len_reads (m : memory) (opt a : addr) :
  In a (reads (dhcp_option_len opt m)) ->
  a = opt + OFF_TAG \/
  (a = opt + OFF_LEN /\ load m (opt + OFF_TAG) <> DHCP_END
   /\ load m (opt + OFF_TAG) <> DHCP_PAD).
Proof.
  unfold dhcp_option_len, bind, read, ret, reads.
  destruct (Z.eqb_spec (load m (opt + OFF_TAG)) DHCP_END) as [He|He]; simpl.
  - intros [<-|[]]. now left.
  - destruct (Z.eqb_spec (load m (opt + OFF_TAG)) DHCP_PAD) as [Hp|Hp]; simpl.
    + intros [<-|[<-|[]]]; now left.
    + intros [<-|[<-|[<-|[]]]]; auto.
Qed.

Lemma scan_step_result (dm : data_model) (m : memory) (tag : Z) (opt : addr)
    (remaining : Z) :
  result (scan_step dm tag opt remaining m)
  = step_outcome dm m tag opt remaining.
Proof.
  unfold scan_step, step_outcome.
  destruct (remaining =? 0); [reflexivity|].
  unfold bind at 1. unfold read at 1.
  destruct (load m (opt + OFF_TAG) =? DHCP_END); [reflexivity|].
  unfold bind at 1.
  pose proof (dhcp_option_len_result m opt) as Hl. unfold result in Hl.
  destruct (dhcp_option_len opt m) as [ol t]. simpl in Hl. subst ol.
  destruct (to_ssize dm (remaining - option_len_at m opt) <? 0);
    [reflexivity|].
  unfold bind at 1. unfold read at 1.
  destruct (load m (opt + OFF_TAG) =? tag); [reflexivity|].
  destruct (DHCP_ENCAPSULATOR tag =? 0); [reflexivity|].
  unfold bind at 1. unfold read at 1.
  destruct (load m (opt + OFF_TAG) =? DHCP_ENCAPSULATOR tag); reflexivity.
Qed.

(** A turn reads nothing when no byte remains; otherwise it reads the tag
    byte and, for a tag other than [DHCP_END] and [DHCP_PAD], the length
    byte. *)
Lemma scan_step_reads (dm : data_model) (m : memory) (tag : Z) (opt : addr)
    (remaining : Z) (a : addr) :
  In a (reads (scan_step dm tag opt remaining m)) ->
  remaining <> 0 /\
  (a = opt + OFF_TAG \/
   (a = opt + OFF_LEN /\ load m (opt + OFF_TAG) <> DHCP_END
    /\ load m (opt + OFF_TAG) <> DHCP_PAD)).
Proof.
  unfold scan_step.
  destruct (Z.eqb_spec remaining 0) as [Hr|Hr]; [intros []|].
  intros Hin. split; [assumption|]. revert Hin.
  unfold bind at 1. unfold read at 1.
  destruct (Z.eqb_spec (load m (opt + OFF_TAG)) DHCP_END) as [He|He].
  { simpl. intros [<-|[]]. now left. }
  unfold bind at 1.
  pose proof (dhcp_option_len_reads m opt a) as Hlr.
  pose proof (load_range m (opt + OFF_LEN)) as Hrange.
  unfold reads in *.
  destruct (dhcp_option_len opt m) as [ol t]. simpl in Hlr.
  assert (Hpad : forall l : list addr,
             In a (opt + OFF_TAG :: t ++ l) ->
             (In a l -> a = opt + OFF_TAG \/
                a = opt + OFF_LEN /\ load m (opt + OFF_TAG) <> DHCP_END
                /\ load m (opt + OFF_TAG) <> DHCP_PAD) ->
             a = opt + OFF_TAG \/
             a = opt + OFF_LEN /\ load m (opt + OFF_TAG) <> DHCP_END
             /\ load m (opt + OFF_TAG) <> DHCP_PAD).
  { intros l [<-|Hin] Hl; [now left|].
    apply in_app_or in Hin. destruct Hin; auto. }
  destruct (to_ssize dm (remaining - ol) <? 0).
  { simpl. intros Hin. apply (Hpad []); [assumption|intros []]. }
  unfold bind at 1. unfold read at 1.
  destruct (load m (opt + OFF_TAG) =? tag).
  { simpl. intros Hin. apply (Hpad [opt + OFF_TAG]); [assumption|].
    intros [<-|[]]. now left. }
  destruct (Z.eqb_spec (DHCP_ENCAPSULATOR tag) 0) as [Hz|Hz].
  { simpl. intros Hin. apply (Hpad [opt + OFF_TAG]); [assumption|].
    intros [<-|[]]. now left. }
  unfold bind at 1. unfold read at 1.
  destruct (Z.eqb_spec (load m (opt + OFF_TAG)) (DHCP_ENCAPSULATOR tag))
    as [Hen|Hen].
  - simpl. intros Hin.
    apply (Hpad [opt + OFF_TAG; opt + OFF_TAG; opt + OFF_LEN]);
      [assumption|].
    intros [<-|[<-|[<-|[]]]]; auto.
    right. split; [reflexivity|]. split; [assumption|].
    unfold DHCP_PAD. congruence.
  - simpl. intros Hin.
    apply (Hpad [opt + OFF_TAG; opt + OFF_TAG]); [assumption|].
    intros [<-|[<-|[]]]; now left.
Qed.

(** With a byte count that an [ssize_t] holds, the subtraction does not
    wrap. *)
Lemma remaining_no_wrap (dm : data_model) (m : memory) (opt : addr)
    (remaining : Z) :
  0 <= remaining <= SSIZE_MAX dm ->
  to_ssize dm (remaining - option_len_at m opt)
  = remaining - option_len_at m opt.
Proof.
  intros Hr. apply to_ssize_id.
  pose proof (option_len_at_range m opt).
  pose proof (SSIZE_MAX_large dm). lia.
Qed.

(** What a turn leads to: the next record of the same block, with fewer
    bytes remaining, or the payload of the current record, which lies within
    the bytes that remained. *)
Lemma step_outcome_next (dm : data_model) (m : memory) (tag : Z) (opt : addr)
    (remaining : Z) :
  0 <= remaining <= SSIZE_MAX dm ->
  match step_outcome dm m tag opt remaining with
  | Return _ => True
  | Continue opt' remaining' =>
      opt' = opt + option_len_at m opt /\
      remaining' = remaining - option_len_at m opt /\
      0 <= remaining' < remaining
  | Recurse tag' data len =>
      tag' = DHCP_ENCAPSULATED tag /\ data = opt + OFF_DATA /\
      len = load m (opt + OFF_LEN) /\ 0 <= len /\ len + 2 <= remaining
  end.
Proof.
  intros Hr. unfold step_outcome.
  rewrite (remaining_no_wrap dm m opt remaining Hr).
  pose proof (option_len_at_range m opt) as Hol.
  pose proof (load_range m (opt + OFF_LEN)) as Hl.
  destruct (remaining =? 0); [exact I|].
  destruct (Z.eqb_spec (load m (opt + OFF_TAG)) DHCP_END) as [He|He];
    [exact I|].
  destruct (Z.ltb_spec (remaining - option_len_at m opt) 0) as [Hneg|Hpos];
    [exact I|].
  destruct (load m (opt + OFF_TAG) =? tag); [exact I|].
  destruct (Z.eqb_spec (DHCP_ENCAPSULATOR tag) 0) as [Hz|Hz]; simpl.
  { repeat split; lia. }
  destruct (Z.eqb_spec (load m (opt + OFF_TAG)) (DHCP_ENCAPSULATOR tag))
    as [Hen|Hen].
  - repeat split; try lia.
    unfold option_len_at in Hpos.
    destruct (Z.eqb_spec (load m (opt + OFF_TAG)) DHCP_END);
      [contradiction|].
    destruct (Z.eqb_spec (load m (opt + OFF_TAG)) DHCP_PAD) as [Hp|Hp].
    + unfold DHCP_PAD in Hp. congruence.
    + simpl in Hpos. lia.
  - repeat split; lia.
Qed.

(** ** The loop *)

Section Loop.

Variable dm : data_model.
Variable m : memory.

Lemma scan_loop_S (fuel : nat) (tag : Z)
    (opt : addr) (remaining : Z) :
  result (scan_loop dm (S fuel) tag opt remaining m)
  = match step_outcome dm m tag opt remaining with
    | Return p => Some p
    | Continue opt' remaining' =>
        result (scan_loop dm fuel tag opt' remaining' m)
    | Recurse tag' data len =>
        result (scan_loop dm fuel tag' data (to_ssize dm len) m)
    end.
Proof.
  rewrite <- scan_step_result. simpl. unfold bind, result.
  destruct (scan_step dm tag opt remaining m) as [[p|o r|t d l] tr]; simpl.
  - reflexivity.
  - destruct (scan_loop dm fuel tag o r m); reflexivity.
  - destruct (scan_loop dm fuel t d (to_ssize dm l) m); reflexivity.
Qed.

Lemma scan_loop_reads_S (fuel : nat) (tag : Z)
    (opt : addr) (remaining : Z) (a : addr) :
  In a (reads (scan_loop dm (S fuel) tag opt remaining m)) ->
  In a (reads (scan_step dm tag opt remaining m)) \/
  match step_outcome dm m tag opt remaining with
  | Return _ => False
  | Continue opt' remaining' =>
      In a (reads (scan_loop dm fuel tag opt' remaining' m))
  | Recurse tag' data len =>
      In a (reads (scan_loop dm fuel tag' data (to_ssize dm len) m))
  end.
Proof.
  rewrite <- scan_step_result. simpl. unfold bind, result, reads.
  destruct (scan_step dm tag opt remaining m) as [[p|o r|t d l] tr]; simpl.
  - rewrite app_nil_r. auto.
  - destruct (scan_loop dm fuel tag o r m); simpl.
    intros Hin. apply in_app_or in Hin. tauto.
  - destruct (scan_loop dm fuel t d (to_ssize dm l) m); simpl.
    intros Hin. apply in_app_or in Hin. tauto.
Qed.

(** More fuel does not change a result. *)
Lemma scan_loop_mono (fuel : nat) :
  forall (fuel' : nat) (tag : Z) (opt : addr) (remaining : Z) (p : ptr),
    result (scan_loop dm fuel tag opt remaining m) = Some p ->
    (fuel <= fuel')%nat ->
    result (scan_loop dm fuel' tag opt remaining m) = Some p.
Proof.
  induction fuel as [|fuel IH]; intros fuel' tag opt remaining p Hres Hle.
  - discriminate Hres.
  - destruct fuel' as [|fuel']; [lia|].
    rewrite scan_loop_S in *.
    destruct (step_outcome dm m tag opt remaining).
    + assumption.
    + apply IH; [assumption|lia].
    + apply IH; [assumption|lia].
Qed.

(** The loop ends within as many turns as bytes remain, plus the one that
    finds none left. *)
Lemma scan_loop_terminates (fuel : nat) :
  forall (tag : Z) (opt : addr) (remaining : Z),
    0 <= remaining <= SSIZE_MAX dm ->
    (Z.to_nat remaining < fuel)%nat ->
    exists p, result (scan_loop dm fuel tag opt remaining m) = Some p.
Proof.
  induction fuel as [|fuel IH]; intros tag opt remaining Hr Hfuel; [lia|].
  rewrite scan_loop_S.
  pose proof (step_outcome_next dm m tag opt remaining Hr) as Hnext.
  destruct (step_outcome dm m tag opt remaining) as [p|o r|t d l].
  - now exists p.
  - destruct Hnext as (_ & _ & Hr'). apply IH; lia.
  - destruct Hnext as (_ & _ & _ & Hl0 & Hl).
    ssize_small.
    apply IH; lia.
Qed.

(** Every address the loop reads lies between the current position and the
    end of the remaining bytes, the end itself included. *)
Lemma scan_loop_reads_bound (fuel : nat) :
  forall (tag : Z) (opt : addr) (remaining : Z) (a : addr),
    0 <= remaining <= SSIZE_MAX dm ->
    In a (reads (scan_loop dm fuel tag opt remaining m)) ->
    opt <= a <= opt + remaining.
Proof.
  induction fuel as [|fuel IH]; intros tag opt remaining a Hr Hin.
  - destruct Hin.
  - apply scan_loop_reads_S in Hin. destruct Hin as [Hin|Hin].
    + apply scan_step_reads in Hin. unfold OFF_TAG, OFF_LEN in Hin. lia.
    + pose proof (step_outcome_next dm m tag opt remaining Hr) as Hnext.
      pose proof (option_len_at_range m opt) as Hol.
      destruct (step_outcome dm m tag opt remaining) as [p|o r|t d l].
      * destruct Hin.
      * destruct Hnext as (-> & -> & Hr').
        apply IH in Hin; lia.
      * destruct Hnext as (_ & -> & _ & Hl0 & Hl).
        ssize_small in Hin.
        apply IH in Hin; unfold OFF_DATA in *; lia.
Qed.

(** ** States the scan passes through *)

Lemma step_at_outcome (s : scan_state) :
  step_at dm m s = step_outcome dm m (s_tag s) (s_option s) (s_remaining s).
Proof. apply scan_step_result. Qed.

Lemma run_next (fuel : nat)
    (s s' : scan_state) :
  next_state dm m s = Some s' ->
  run dm (S fuel) s m = run dm fuel s' m.
Proof.
  unfold next_state, run. rewrite step_at_outcome, scan_loop_S.
  destruct (step_outcome dm m (s_tag s) (s_option s) (s_remaining s));
    intros Hs; inversion Hs; reflexivity.
Qed.

Lemma run_return (fuel : nat)
    (s : scan_state) (p : ptr) :
  step_at dm m s = Return p ->
  run dm (S fuel) s m = Some p.
Proof.
  unfold run. rewrite step_at_outcome, scan_loop_S. now intros ->.
Qed.

Lemma reaches_run (s0 s : scan_state) :
  scan_reaches dm m s0 s ->
  forall (fuel : nat) (p : ptr),
    run dm fuel s m = Some p ->
    exists fuel0, run dm fuel0 s0 m = Some p.
Proof.
  induction 1 as [s|s s' s'' Hnext _ IH]; intros fuel p Hrun.
  - now exists fuel.
  - destruct (IH fuel p Hrun) as [fuel' Hrun'].
    exists (S fuel'). now rewrite (run_next fuel' s s' Hnext).
Qed.

Lemma reaches_remaining (s0 s : scan_state) :
  scan_reaches dm m s0 s ->
  0 <= s_remaining s0 <= SSIZE_MAX dm ->
  0 <= s_remaining s <= s_remaining s0.
Proof.
  induction 1 as [s|s s' s'' Hnext _ IH]; intros Hr; [lia|].
  unfold next_state in Hnext. rewrite step_at_outcome in Hnext.
  pose proof (step_outcome_next dm m (s_tag s) (s_option s) (s_remaining s) Hr)
    as Hstep.
  destruct (step_outcome dm m (s_tag s) (s_option s) (s_remaining s))
    as [p|o r|t d l]; inversion Hnext; subst s'; simpl in IH.
  - lia.
  - destruct Hstep as (_ & _ & _ & Hl0 & Hl).
    ssize_small in IH.
    lia.
Qed.

(** Whatever the loop returns from a state the scan passes through is what
    [find_dhcp_option_raw] returns. *)
Lemma scan_result_from (tag : Z) (data : addr)
    (len : Z) (s : scan_state) (fuel_s fuel : nat) (p : ptr) :
  0 <= len <= SSIZE_MAX dm ->
  scan_reaches dm m (scan_init dm tag data len) s ->
  run dm fuel_s s m = Some p ->
  (Z.to_nat len < fuel)%nat ->
  result (find_dhcp_option_raw dm fuel tag data len m) = Some p.
Proof.
  intros Hlen Hreach Hrun Hfuel.
  destruct (reaches_run _ _ Hreach fuel_s p Hrun) as [fuel0 Hrun0].
  unfold run, scan_init in Hrun0. simpl in Hrun0.
  unfold find_dhcp_option_raw.
  apply (scan_loop_mono fuel0 (Nat.max fuel0 fuel)) in Hrun0; [|lia].
  destruct (scan_loop_terminates fuel tag data (to_ssize dm len))
    as [p' Hp'].
  { rewrite to_ssize_id by lia. lia. }
  { rewrite to_ssize_id by lia. lia. }
  pose proof (scan_loop_mono fuel (Nat.max fuel0 fuel) _ _ _ _ Hp'
                ltac:(lia)) as Hmax.
  congruence.
Qed.

End Loop.

(** ** Outcomes of a turn *)

Lemma option_len_at_plain (m : memory) (opt : addr) :
  load m (opt + OFF_TAG) <> DHCP_END ->
  load m (opt + OFF_TAG) <> DHCP_PAD ->
  option_len_at m opt = load m (opt + OFF_LEN) + 2.
Proof.
  intros He Hp. unfold option_len_at.
  destruct (Z.eqb_spec (load m (opt + OFF_TAG)) DHCP_END); [contradiction|].
  destruct (Z.eqb_spec (load m (opt + OFF_TAG)) DHCP_PAD); [contradiction|].
  reflexivity.
Qed.

(** A record longer than what remains ends the scan. *)
Lemma step_outcome_overrun (dm : data_model) (m : memory) (tag : Z)
    (opt : addr) (remaining : Z) :
  0 <= remaining <= SSIZE_MAX dm ->
  remaining < option_len_at m opt ->
  step_outcome dm m tag opt remaining = Return NULL.
Proof.
  intros Hr Hover. unfold step_outcome.
  rewrite (remaining_no_wrap dm m opt remaining Hr).
  destruct (remaining =? 0); [reflexivity|].
  destruct (load m (opt + OFF_TAG) =? DHCP_END); [reflexivity|].
  destruct (Z.ltb_spec (remaining - option_len_at m opt) 0);
    [reflexivity|lia].
Qed.

(** The end marker ends the scan. *)
Lemma step_outcome_end (dm : data_model) (m : memory) (tag : Z)
    (opt : addr) (remaining : Z) :
  load m (opt + OFF_TAG) = DHCP_END ->
  step_outcome dm m tag opt remaining = Return NULL.
Proof.
  intros He. unfold step_outcome.
  destruct (remaining =? 0); [reflexivity|].
  rewrite He. reflexivity.
Qed.

(** A record that fits and carries the tag looked for is returned. *)
Lemma step_outcome_match (dm : data_model) (m : memory) (tag : Z)
    (opt : addr) (remaining : Z) :
  0 <= remaining <= SSIZE_MAX dm ->
  load m (opt + OFF_TAG) <> DHCP_END ->
  option_len_at m opt <= remaining ->
  load m (opt + OFF_TAG) = tag ->
  step_outcome dm m tag opt remaining = Return (Some opt).
Proof.
  intros Hr He Hfit Htag. unfold step_outcome.
  rewrite (remaining_no_wrap dm m opt remaining Hr).
  pose proof (option_len_at_range m opt).
  destruct (Z.eqb_spec remaining 0); [lia|].
  destruct (Z.eqb_spec (load m (opt + OFF_TAG)) DHCP_END); [contradiction|].
  destruct (Z.ltb_spec (remaining - option_len_at m opt) 0); [lia|].
  destruct (Z.eqb_spec (load m (opt + OFF_TAG)) tag); [reflexivity|].
  contradiction.
Qed.

(** A record that fits and carries the encapsulator of the tag looked for
    sends the scan into its payload. *)
Lemma step_outcome_encap (dm : data_model) (m : memory) (tag : Z)
    (opt : addr) (remaining : Z) :
  0 <= remaining <= SSIZE_MAX dm ->
  load m (opt + OFF_TAG) <> DHCP_END ->
  option_len_at m opt <= remaining ->
  load m (opt + OFF_TAG) <> tag ->
  DHCP_ENCAPSULATOR tag <> 0 ->
  load m (opt + OFF_TAG) = DHCP_ENCAPSULATOR tag ->
  step_outcome dm m tag opt remaining
  = Recurse (DHCP_ENCAPSULATED tag) (opt + OFF_DATA) (load m (opt + OFF_LEN)).
Proof.
  intros Hr He Hfit Htag Hz Hen. unfold step_outcome.
  rewrite (remaining_no_wrap dm m opt remaining Hr).
  pose proof (option_len_at_range m opt).
  destruct (Z.eqb_spec remaining 0); [lia|].
  destruct (Z.eqb_spec (load m (opt + OFF_TAG)) DHCP_END); [contradiction|].
  destruct (Z.ltb_spec (remaining - option_len_at m opt) 0); [lia|].
  destruct (Z.eqb_spec (load m (opt + OFF_TAG)) tag); [contradiction|].
  destruct (Z.eqb_spec (DHCP_ENCAPSULATOR tag) 0); [contradiction|].
  destruct (Z.eqb_spec (load m (opt + OFF_TAG)) (DHCP_ENCAPSULATOR tag));
    [reflexivity|contradiction].
Qed.

(** ** The access log *)

Lemma result_bind {A B} (c : Rd A) (f : A -> Rd B) (m : memory) :
  result (bind c f m) = result (f (result (c m)) m).
Proof.
  unfold bind, result. destruct (c m) as [a t1]. simpl.
  destruct (f a m); reflexivity.
Qed.

Lemma reads_bind {A B} (c : Rd A) (f : A -> Rd B) (m : memory) :
  reads (bind c f m) = reads (c m) ++ reads (f (result (c m)) m).
Proof.
  unfold bind, result, reads. destruct (c m) as [a t1]. simpl.
  destruct (f a m); reflexivity.
Qed.

(** ** Bounds of the accesses *)

(** The accesses of [find_dhcp_option_raw] stay between the start of the data
    block and its end, but the end itself, one byte past the last byte of the
    block, is not excluded. *)
Lemma find_dhcp_option_raw_reads_bound (dm : data_model) (m : memory)
    (fuel : nat) (tag : Z) (data : addr) (len : Z) (a : addr) :
  0 <= len <= SSIZE_MAX dm ->
  In a (reads (find_dhcp_option_raw dm fuel tag data len m)) ->
  data <= a <= data + len.
Proof.
  intros Hlen Hin. unfold find_dhcp_option_raw in Hin.
  rewrite to_ssize_id in Hin by lia.
  now apply (scan_loop_reads_bound dm m fuel tag data len a Hlen).
Qed.

(** For a tag that is neither [DHCP_END] nor [DHCP_PAD], [dhcp_option_len]
    reads the length byte. *)
Lemma dhcp_option_len_reads_len (m : memory) (opt : addr) :
  load m (opt + OFF_TAG) <> DHCP_END ->
  load m (opt + OFF_TAG) <> DHCP_PAD ->
  In (opt + OFF_LEN) (reads (dhcp_option_len opt m)).
Proof.
  intros He Hp. unfold dhcp_option_len, bind, read, ret, reads.
  destruct (Z.eqb_spec (load m (opt + OFF_TAG)) DHCP_END); [contradiction|].
  destruct (Z.eqb_spec (load m (opt + OFF_TAG)) DHCP_PAD); [contradiction|].
  simpl. auto.
Qed.

(** So does a turn of the loop, whenever a byte remains: the length byte is
    read before the remaining count is compared with anything. *)
Lemma scan_step_reads_len (dm : data_model) (m : memory) (tag : Z)
    (opt : addr) (remaining : Z) :
  remaining <> 0 ->
  load m (opt + OFF_TAG) <> DHCP_END ->
  load m (opt + OFF_TAG) <> DHCP_PAD ->
  In (opt + OFF_LEN) (reads (scan_step dm tag opt remaining m)).
Proof.
  intros Hr He Hp. unfold scan_step.
  destruct (Z.eqb_spec remaining 0); [contradiction|].
  rewrite reads_bind. apply in_or_app. right.
  change (result (read (opt + OFF_TAG) m)) with (load m (opt + OFF_TAG)).
  cbv beta.
  destruct (Z.eqb_spec (load m (opt + OFF_TAG)) DHCP_END); [contradiction|].
  rewrite reads_bind. apply in_or_app. left.
  now apply dhcp_option_len_reads_len.
Qed.

Lemma scan_loop_reads_step (dm : data_model) (m : memory) (fuel : nat)
    (tag : Z) (opt : addr) (remaining : Z) (a : addr) :
  In a (reads (scan_step dm tag opt remaining m)) ->
  In a (reads (scan_loop dm (S fuel) tag opt remaining m)).
Proof.
  simpl. unfold bind, reads.
  destruct (scan_step dm tag opt remaining m) as [[p|o r|t d l] tr]; simpl.
  - now rewrite app_nil_r.
  - destruct (scan_loop dm fuel tag o r m). simpl.
    intros Hin. apply in_or_app. now left.
  - destruct (scan_loop dm fuel t d (to_ssize dm l) m). simpl.
    intros Hin. apply in_or_app. now left.
Qed.

(** C1 (the code departs from the claim): when the last byte of a data block
    is the tag of a record that has a length byte, [find_dhcp_option_raw]
    reads that length byte, which lies at [data + len], outside the block.
    Here the block has a single byte; the scan then returns [NULL]. *)
Theorem C1_length_byte_read_past_end (dm : data_model) (m : memory)
    (fuel : nat) (tag : Z) (data : addr) :
  load m (data + OFF_TAG) <> DHCP_END ->
  load m (data + OFF_TAG) <> DHCP_PAD ->
  (0 < fuel)%nat ->
  In (data + 1) (reads (find_dhcp_option_raw dm fuel tag data 1 m)) /\
  ~ (data <= data + 1 < data + 1) /\
  result (find_dhcp_option_raw dm fuel tag data 1 m) = Some NULL.
Proof.
  intros He Hp Hfuel. destruct fuel as [|fuel]; [lia|].
  unfold find_dhcp_option_raw.
  ssize_small.
  split; [|split].
  - apply scan_loop_reads_step.
    apply (scan_step_reads_len dm m tag data 1); [lia|assumption|assumption].
  - lia.
  - rewrite scan_loop_S, step_outcome_overrun; [reflexivity| |].
    + pose proof (SSIZE_MAX_large dm). lia.
    + rewrite option_len_at_plain by assumption.
      pose proof (load_range m (data + OFF_LEN)). lia.
Qed.

Lemma C1_length_byte_read_past_end_witness :
  valid_tag 53 /\
  In 101 (reads (find_dhcp_option_raw ILP32 (scan_fuel 1) 53 100 1 cut_block))
  /\ ~ (100 <= 101 < 100 + 1)
  /\ result (find_dhcp_option_raw ILP32 (scan_fuel 1) 53 100 1 cut_block)
     = Some NULL.
Proof.
  split.
  - unfold valid_tag. vm_compute. repeat split; discriminate.
  - apply (C1_length_byte_read_past_end ILP32 cut_block (scan_fuel 1) 53 100).
    + vm_compute. discriminate.
    + vm_compute. discriminate.
    + unfold scan_fuel. lia.
Defined.

(** ** The scan *)

(** The outcome [Return] of a turn the scan comes to is the answer of
    [find_dhcp_option_raw]. *)
Lemma scan_returns (dm : data_model) (m : memory) (tag : Z) (data : addr)
    (len : Z) (s : scan_state) (fuel : nat) (p : ptr) :
  0 <= len <= SSIZE_MAX dm ->
  scan_reaches dm m (scan_init dm tag data len) s ->
  step_at dm m s = Return p ->
  (Z.to_nat len < fuel)%nat ->
  result (find_dhcp_option_raw dm fuel tag data len m) = Some p.
Proof.
  intros Hlen Hreach Hstep Hfuel.
  apply (scan_result_from dm m tag data len s 1 fuel p);
    try assumption.
  now apply run_return.
Qed.

Lemma reaches_in_range (dm : data_model) (m : memory) (tag : Z) (data : addr)
    (len : Z) (s : scan_state) :
  0 <= len <= SSIZE_MAX dm ->
  scan_reaches dm m (scan_init dm tag data len) s ->
  0 <= s_remaining s <= len.
Proof.
  intros Hlen Hreach.
  apply reaches_remaining in Hreach; simpl in *;
    rewrite to_ssize_id in * by lia; lia.
Qed.

(** An empty data block holds nothing. *)
Lemma find_dhcp_option_raw_empty (dm : data_model) (m : memory) (fuel : nat)
    (tag : Z) (data : addr) :
  (0 < fuel)%nat ->
  result (find_dhcp_option_raw dm fuel tag data 0 m) = Some NULL.
Proof.
  intros Hfuel. destruct fuel as [|fuel]; [lia|].
  unfold find_dhcp_option_raw.
  ssize_small.
  rewrite scan_loop_S. reflexivity.
Qed.

(** C2: when the scan comes to a record whose on-wire length, as
    [dhcp_option_len] computes it, exceeds the remaining byte count, that
    turn ends the scan and [find_dhcp_option_raw] returns [NULL]: the very
    answer it gives for a data block that holds nothing, so that the caller
    cannot tell the two apart.  This holds for every tag. *)
Theorem C2_overrun_returns_not_found (dm : data_model) (m : memory)
    (tag : Z) (data : addr) (len : Z) (s : scan_state) (fuel : nat) :
  0 <= len <= SSIZE_MAX dm ->
  scan_reaches dm m (scan_init dm tag data len) s ->
  s_remaining s <> 0 ->
  s_remaining s < option_len_at m (s_option s) ->
  (Z.to_nat len < fuel)%nat ->
  step_at dm m s = Return NULL /\
  result (find_dhcp_option_raw dm fuel tag data len m) = Some NULL /\
  result (find_dhcp_option_raw dm fuel tag data len m)
  = result (find_dhcp_option_raw dm fuel tag data 0 m).
Proof.
  intros Hlen Hreach Hnz Hover Hfuel.
  pose proof (reaches_in_range dm m tag data len s Hlen Hreach) as Hr.
  assert (Hstep : step_at dm m s = Return NULL).
  { rewrite step_at_outcome. apply step_outcome_overrun; [lia|assumption]. }
  assert (Hres : result (find_dhcp_option_raw dm fuel tag data len m)
                 = Some NULL)
    by now apply (scan_returns dm m tag data len s fuel NULL).
  repeat split; try assumption.
  rewrite Hres. symmetry. apply find_dhcp_option_raw_empty. lia.
Qed.

(** C3: when the tag byte at the position the scan has come to is
    [DHCP_END], that turn ends the scan and [find_dhcp_option_raw] returns
    [NULL], whatever follows the end marker in the data block. *)
Theorem C3_end_marker_stops_scan (dm : data_model) (m : memory)
    (tag : Z) (data : addr) (len : Z) (s : scan_state) (fuel : nat) :
  0 <= len <= SSIZE_MAX dm ->
  scan_reaches dm m (scan_init dm tag data len) s ->
  load m (s_option s + OFF_TAG) = DHCP_END ->
  (Z.to_nat len < fuel)%nat ->
  step_at dm m s = Return NULL /\
  result (find_dhcp_option_raw dm fuel tag data len m) = Some NULL.
Proof.
  intros Hlen Hreach Hend Hfuel.
  assert (Hstep : step_at dm m s = Return NULL).
  { rewrite step_at_outcome. now apply step_outcome_end. }
  split; [assumption|].
  now apply (scan_returns dm m tag data len s fuel NULL).
Qed.

(** A turn that goes on leaves a byte count that is not negative, whatever
    the count was before; a recursive call gets the value of a length
    byte. *)
Lemma step_outcome_range (dm : data_model) (m : memory) (tag : Z)
    (opt : addr) (remaining : Z) :
  match step_outcome dm m tag opt remaining with
  | Return _ => True
  | Continue _ remaining' => 0 <= remaining' <= SSIZE_MAX dm
  | Recurse _ _ len => 0 <= len < 256
  end.
Proof.
  unfold step_outcome.
  pose proof (to_ssize_range dm (remaining - option_len_at m opt)) as Hrange.
  pose proof (load_range m (opt + OFF_LEN)) as Hl.
  destruct (remaining =? 0); [exact I|].
  destruct (load m (opt + OFF_TAG) =? DHCP_END); [exact I|].
  destruct (Z.ltb_spec (to_ssize dm (remaining - option_len_at m opt)) 0);
    [exact I|].
  destruct (load m (opt + OFF_TAG) =? tag); [exact I|].
  destruct (_ && _); [assumption|lia].
Qed.

(** The loop ends from every state, also from one whose byte count does not
    fit an [ssize_t] without wrapping. *)
Lemma scan_loop_terminates_any (dm : data_model) (m : memory) (tag : Z)
    (opt : addr) (remaining : Z) :
  exists p : ptr,
    forall fuel : nat,
      (S (Z.to_nat (SSIZE_MAX dm)) < fuel)%nat ->
      result (scan_loop dm fuel tag opt remaining m) = Some p.
Proof.
  pose proof (SSIZE_MAX_large dm) as Hmax.
  assert (Hone : exists p,
             result (scan_loop dm (S (S (Z.to_nat (SSIZE_MAX dm)))) tag opt
                       remaining m) = Some p).
  { rewrite scan_loop_S.
    pose proof (step_outcome_range dm m tag opt remaining) as Hrange.
    destruct (step_outcome dm m tag opt remaining) as [p|o r|t d l].
    - now exists p.
    - apply scan_loop_terminates; lia.
    - rewrite to_ssize_id by lia.
      apply scan_loop_terminates; lia. }
  destruct Hone as [p Hp]. exists p. intros fuel Hfuel.
  apply (scan_loop_mono dm m _ fuel _ _ _ _ Hp). lia.
Qed.

(** C9: [find_dhcp_option_raw] terminates on every data block.  For a
    length that an [ssize_t] holds, [len + 1] turns of the loop are enough:
    the on-wire length of a record is at least 1, each turn that goes on to
    the next record leaves fewer bytes remaining, and each recursive call is
    on a payload shorter than the bytes that remained. *)
Theorem C9_scan_terminates (dm : data_model) (m : memory) (tag : Z)
    (data : addr) (len : Z) :
  (exists p : ptr,
      forall fuel : nat,
        (S (Z.to_nat (SSIZE_MAX dm)) < fuel)%nat ->
        result (find_dhcp_option_raw dm fuel tag data len m) = Some p) /\
  (0 <= len <= SSIZE_MAX dm ->
   (exists p : ptr,
       forall fuel : nat,
         (Z.to_nat len < fuel)%nat ->
         result (find_dhcp_option_raw dm fuel tag data len m) = Some p) /\
   (forall s : scan_state,
       scan_reaches dm m (scan_init dm tag data len) s ->
       0 <= s_remaining s <= len /\
       1 <= option_len_at m (s_option s) /\
       match step_at dm m s with
       | Return _ => True
       | Continue opt' remaining' =>
           opt' = s_option s + option_len_at m (s_option s) /\
           0 <= remaining' <= s_remaining s - 1
       | Recurse _ data' len' =>
           data' = s_option s + OFF_DATA /\
           0 <= len' < s_remaining s
       end)).
Proof.
  split; [apply scan_loop_terminates_any|].
  intros Hlen. split.
  - destruct (scan_loop_terminates dm m (scan_fuel len) tag data
                (to_ssize dm len)) as [p Hp].
    { rewrite to_ssize_id by lia. lia. }
    { rewrite to_ssize_id by lia. unfold scan_fuel. lia. }
    exists p. intros fuel Hfuel. unfold find_dhcp_option_raw.
    apply (scan_loop_mono dm m (scan_fuel len)); [assumption|].
    unfold scan_fuel. lia.
  - intros s Hreach.
    pose proof (reaches_in_range dm m tag data len s Hlen Hreach) as Hr.
    split; [assumption|].
    split; [apply option_len_at_range|].
    rewrite step_at_outcome.
    pose proof (step_outcome_next dm m (s_tag s) (s_option s) (s_remaining s)
                  ltac:(lia)) as Hnext.
    destruct (step_outcome dm m (s_tag s) (s_option s) (s_remaining s))
      as [p|o r|t d l].
    + exact I.
    + destruct Hnext as (-> & -> & Hr'). split; [reflexivity|lia].
    + destruct Hnext as (_ & -> & _ & Hl0 & Hl). split; [reflexivity|lia].
Qed.

(** ** Composite tags *)

Lemma DHCP_ENCAPSULATOR_plain (t : Z) :
  0 <= t < 256 -> DHCP_ENCAPSULATOR t = 0.
Proof.
  intros Ht. unfold DHCP_ENCAPSULATOR.
  rewrite Z.shiftr_div_pow2 by lia. apply Z.div_small.
  change (2 ^ 8) with 256. lia.
Qed.

Lemma DHCP_ENCAPSULATOR_ENCAP_OPT (E sub : Z) :
  0 <= sub < 256 -> DHCP_ENCAPSULATOR (DHCP_ENCAP_OPT E sub) = E.
Proof.
  intros Hsub. unfold DHCP_ENCAPSULATOR, DHCP_ENCAP_OPT.
  rewrite Z.shiftr_lor.
  rewrite Z.shiftr_shiftl_l by lia.
  change (8 - 8) with 0. rewrite Z.shiftl_0_r.
  fold (DHCP_ENCAPSULATOR sub). rewrite DHCP_ENCAPSULATOR_plain by assumption.
  apply Z.lor_0_r.
Qed.

Lemma DHCP_ENCAPSULATED_ENCAP_OPT (E sub : Z) :
  0 <= sub < 256 -> DHCP_ENCAPSULATED (DHCP_ENCAP_OPT E sub) = sub.
Proof.
  intros Hsub. unfold DHCP_ENCAPSULATED, DHCP_ENCAP_OPT.
  change 255 with (Z.ones 8).
  rewrite Z.land_lor_distr_l.
  rewrite !Z.land_ones by lia.
  rewrite Z.shiftl_mul_pow2 by lia.
  rewrite Z.mod_mul by (change (2 ^ 8) with 256; lia).
  rewrite Z.mod_small by (change (2 ^ 8) with 256; lia).
  apply Z.lor_0_l.
Qed.

(** C4, as amended: for a composite tag made of the encapsulator [E] and the
    sub-tag [sub], when the outer scan comes to a record whose tag is [E] and
    whose on-wire length does not exceed the remaining byte count, the turn
    ends in the recursive call on the payload, and [find_dhcp_option_raw]
    returns exactly what the search of that payload, a data block of the
    record's [len] bytes, returns for [sub]. *)
Theorem C4_encapsulated_search (dm : data_model) (m : memory) (E sub : Z)
    (data : addr) (len : Z) (s : scan_state) (fuel fuel' : nat) :
  0 <= len <= SSIZE_MAX dm ->
  0 < E < 255 ->
  0 <= sub < 256 ->
  scan_reaches dm m (scan_init dm (DHCP_ENCAP_OPT E sub) data len) s ->
  s_tag s = DHCP_ENCAP_OPT E sub ->
  load m (s_option s + OFF_TAG) = E ->
  option_len_at m (s_option s) <= s_remaining s ->
  (Z.to_nat len < fuel)%nat ->
  (Z.to_nat (load m (s_option s + OFF_LEN)%Z) < fuel')%nat ->
  step_at dm m s
  = Recurse sub (s_option s + OFF_DATA) (load m (s_option s + OFF_LEN)) /\
  result (find_dhcp_option_raw dm fuel (DHCP_ENCAP_OPT E sub) data len m)
  = result (find_dhcp_option_raw dm fuel' sub (s_option s + OFF_DATA)
              (load m (s_option s + OFF_LEN)) m).
Proof.
  intros Hlen HE Hsub Hreach Htag Hbyte Hfit Hfuel Hfuel'.
  pose proof (reaches_in_range dm m _ data len s Hlen Hreach) as Hr.
  pose proof (load_range m (s_option s + OFF_LEN)) as Hl.
  pose proof (SSIZE_MAX_large dm) as Hmax.
  assert (Hstep : step_at dm m s
                  = Recurse sub (s_option s + OFF_DATA)
                      (load m (s_option s + OFF_LEN))).
  { rewrite step_at_outcome, Htag.
    rewrite <- (DHCP_ENCAPSULATED_ENCAP_OPT E sub Hsub) at 2.
    apply step_outcome_encap.
    - lia.
    - rewrite Hbyte. unfold DHCP_END. lia.
    - assumption.
    - rewrite Hbyte. intros Heq.
      pose proof (DHCP_ENCAPSULATOR_ENCAP_OPT E sub Hsub) as Hen.
      rewrite <- Heq in Hen.
      rewrite DHCP_ENCAPSULATOR_plain in Hen by lia. lia.
    - rewrite DHCP_ENCAPSULATOR_ENCAP_OPT by assumption. lia.
    - rewrite DHCP_ENCAPSULATOR_ENCAP_OPT by assumption. assumption. }
  split; [assumption|].
  destruct (scan_loop_terminates dm m fuel' sub (s_option s + OFF_DATA)
              (to_ssize dm (load m (s_option s + OFF_LEN)))) as [p Hp].
  { rewrite to_ssize_id by lia. lia. }
  { rewrite to_ssize_id by lia. lia. }
  unfold find_dhcp_option_raw at 2. rewrite Hp.
  apply (scan_result_from dm m _ data len s (S fuel') fuel p);
    try assumption.
  unfold run. rewrite scan_loop_S, <- step_at_outcome, Hstep. assumption.
Qed.

(** ** The scan on the sample data blocks *)

Lemma C2_overrun_returns_not_found_witness :
  s_remaining (mk_scan_state 54 103 2) < option_len_at overrun_block 103 /\
  step_at ILP32 overrun_block (mk_scan_state 54 103 2) = Return NULL /\
  result (find_dhcp_option_raw ILP32 (scan_fuel 5) 54 100 5 overrun_block)
  = Some NULL /\
  result (find_dhcp_option_raw ILP32 (scan_fuel 5) 54 100 5 overrun_block)
  = result (find_dhcp_option_raw ILP32 (scan_fuel 5) 54 100 0 overrun_block).
Proof.
  split; [vm_compute; reflexivity|].
  apply (C2_overrun_returns_not_found ILP32 overrun_block 54 100 5
           (mk_scan_state 54 103 2) (scan_fuel 5)).
  - vm_compute. split; discriminate.
  - apply (reaches_next ILP32 overrun_block _ (mk_scan_state 54 103 2));
      [vm_compute; reflexivity|apply reaches_here].
  - simpl. discriminate.
  - vm_compute. reflexivity.
  - unfold scan_fuel. simpl. lia.
Defined.

Lemma C3_end_marker_stops_scan_witness :
  load hidden_block (101 + OFF_TAG) = 53 /\
  result (find_dhcp_option_raw ILP32 (scan_fuel 3) 53 101 3 hidden_block)
  = Some (Some 101) /\
  step_at ILP32 hidden_block (scan_init ILP32 53 100 4) = Return NULL /\
  result (find_dhcp_option_raw ILP32 (scan_fuel 4) 53 100 4 hidden_block)
  = Some NULL.
Proof.
  split; [vm_compute; reflexivity|].
  split; [vm_compute; reflexivity|].
  apply (C3_end_marker_stops_scan ILP32 hidden_block 53 100 4
           (scan_init ILP32 53 100 4) (scan_fuel 4)).
  - vm_compute. split; discriminate.
  - apply reaches_here.
  - vm_compute. reflexivity.
  - unfold scan_fuel. simpl. lia.
Defined.

Lemma C9_scan_terminates_witness :
  exists p : ptr,
    forall fuel : nat,
      (Z.to_nat 4 < fuel)%nat ->
      result (find_dhcp_option_raw ILP32 fuel 53 100 4 sample_block) = Some p.
Proof.
  destruct (C9_scan_terminates ILP32 sample_block 53 100 4) as [_ Hbound].
  apply Hbound. vm_compute. split; discriminate.
Defined.

Lemma C4_encapsulated_search_witness :
  step_at ILP32 encap_block (scan_init ILP32 (DHCP_ENCAP_OPT 43 1) 100 4)
  = Recurse 1 (100 + OFF_DATA) (load encap_block (100 + OFF_LEN)) /\
  result (find_dhcp_option_raw ILP32 (scan_fuel 4) (DHCP_ENCAP_OPT 43 1)
            100 4 encap_block)
  = result (find_dhcp_option_raw ILP32 (scan_fuel 2) 1 (100 + OFF_DATA)
              (load encap_block (100 + OFF_LEN)) encap_block).
Proof.
  apply (C4_encapsulated_search ILP32 encap_block 43 1 100 4
           (scan_init ILP32 (DHCP_ENCAP_OPT 43 1) 100 4)
           (scan_fuel 4) (scan_fuel 2)).
  - vm_compute. split; discriminate.
  - lia.
  - lia.
  - apply reaches_here.
  - reflexivity.
  - vm_compute. reflexivity.
  - vm_compute. discriminate.
  - unfold scan_fuel. simpl. lia.
  - vm_compute. lia.
Defined.

(** C4, as stated, fails: the record with tag 43 declares two payload bytes,
    of which the data block of three bytes holds one.  The scan of the block
    returns [NULL], while the search of that record's payload, taken with the
    length the record declares, finds the record with tag 1. *)
Lemma C4_counterexample :
  valid_tag (DHCP_ENCAP_OPT 43 1) /\
  scan_reaches ILP32 encap_block
    (scan_init ILP32 (DHCP_ENCAP_OPT 43 1) 100 3)
    (mk_scan_state (DHCP_ENCAP_OPT 43 1) 100 3) /\
  load encap_block (100 + OFF_TAG) = DHCP_ENCAPSULATOR (DHCP_ENCAP_OPT 43 1) /\
  result (find_dhcp_option_raw ILP32 (scan_fuel 3) (DHCP_ENCAP_OPT 43 1)
            100 3 encap_block) = Some NULL /\
  result (find_dhcp_option_raw ILP32 (scan_fuel 2)
            (DHCP_ENCAPSULATED (DHCP_ENCAP_OPT 43 1)) (100 + OFF_DATA)
            (load encap_block (100 + OFF_LEN)) encap_block)
  = Some (Some 102).
Proof.
  split.
  { unfold valid_tag. vm_compute. repeat split; discriminate. }
  split; [apply reaches_here|].
  repeat split; vm_compute; reflexivity.
Qed.

(** ** Numeric values *)

Lemma SIZE_MODULUS_pos (dm : data_model) : 0 < SIZE_MODULUS dm.
Proof. destruct dm; reflexivity. Qed.

Lemma to_size_land (dm : data_model) (x : Z) :
  to_size dm x = Z.land x (Z.ones (long_bits dm)).
Proof.
  unfold to_size, SIZE_MODULUS. rewrite Z.land_ones; [reflexivity|].
  pose proof (long_bits_ge dm). lia.
Qed.

Lemma to_size_byte (dm : data_model) (b : Z) :
  0 <= b < 256 -> to_size dm b = b.
Proof.
  intros Hb. unfold to_size. apply Z.mod_small.
  assert (2 ^ 32 <= SIZE_MODULUS dm).
  { unfold SIZE_MODULUS. apply Z.pow_le_mono_r; [lia|apply long_bits_ge]. }
  change (2 ^ 32) with 4294967296 in *. lia.
Qed.

(** Shifting the accumulator first and wrapping after the byte is or-ed in
    gives the same as wrapping the shifted accumulator, as the C expression
    does. *)
Lemma num_step_wrap (dm : data_model) (value b : Z) :
  0 <= b < 256 ->
  num_step dm value b = to_size dm (Z.lor (Z.shiftl value 8) b).
Proof.
  intros Hb. unfold num_step.
  rewrite (to_size_land dm (Z.lor _ _)), Z.land_lor_distr_l.
  rewrite <- !to_size_land. now rewrite (to_size_byte dm b).
Qed.

(** A byte or-ed into a value shifted by 8 is added to it. *)
Lemma shift_or_byte (value b : Z) :
  0 <= b < 256 -> Z.lor (Z.shiftl value 8) b = value * 256 + b.
Proof.
  intros Hb.
  assert (Hdisj : Z.land (Z.shiftl value 8) b = 0).
  { rewrite <- (Z.mod_small b (2 ^ 8)) by (change (2 ^ 8) with 256; lia).
    rewrite <- Z.land_ones by lia.
    rewrite (Z.land_comm b), Z.land_assoc.
    rewrite (Z.land_ones (Z.shiftl value 8)) by lia.
    rewrite Z.shiftl_mul_pow2 by lia.
    rewrite Z.mod_mul by (change (2 ^ 8) with 256; lia).
    apply Z.land_0_l. }
  rewrite <- Z.lxor_lor by assumption.
  rewrite <- Z.add_nocarry_lxor by assumption.
  rewrite Z.shiftl_mul_pow2 by lia. reflexivity.
Qed.

Lemma num_loop_fold (dm : data_model) (m : memory) (n : nat) :
  forall (data : addr) (value : Z),
    num_loop dm n m data value
    = fold_left (num_step dm)
        (map (fun i => load m (data + Z.of_nat i)) (seq 0 n)) value.
Proof.
  induction n as [|n IH]; intros data value; [reflexivity|].
  cbn [num_loop seq map fold_left].
  rewrite IH, <- seq_shift, map_map.
  replace (data + Z.of_nat 0) with data by lia.
  f_equal. apply map_ext. intros i. f_equal. lia.
Qed.

Lemma payload_bytes (m : memory) (opt : addr) :
  Forall (fun b => 0 <= b < 256) (payload m opt).
Proof.
  unfold payload. apply Forall_forall. intros b Hin.
  apply in_map_iff in Hin. destruct Hin as (i & <- & _). apply load_range.
Qed.

Lemma payload_length (m : memory) (opt : addr) :
  length (payload m opt) = Z.to_nat (load m (opt + OFF_LEN)).
Proof. unfold payload. now rewrite length_map, length_seq. Qed.

Lemma fold_num_step_spec (dm : data_model) (bytes : list Z) :
  Forall (fun b => 0 <= b < 256) bytes ->
  forall value : Z,
    fold_left (num_step dm) bytes value
    = fold_left (fun v b => to_size dm (Z.lor (Z.shiftl v 8) b)) bytes value.
Proof.
  induction 1 as [|b bytes Hb _ IH]; intros value; [reflexivity|].
  cbn [fold_left]. rewrite IH. now rewrite num_step_wrap.
Qed.

(** The accumulator holds the big-endian number read so far, modulo
    [2^w]. *)
Lemma fold_spec_be (dm : data_model) (bytes : list Z) :
  Forall (fun b => 0 <= b < 256) bytes ->
  forall value : Z,
    fold_left (fun v b => to_size dm (Z.lor (Z.shiftl v 8) b)) bytes
      (to_size dm value)
    = to_size dm (fold_left (fun v b => v * 256 + b) bytes value).
Proof.
  induction 1 as [|b bytes Hb _ IH]; intros value; [reflexivity|].
  cbn [fold_left]. rewrite <- IH. f_equal.
  rewrite !shift_or_byte by assumption.
  unfold to_size. pose proof (SIZE_MODULUS_pos dm).
  rewrite (Z.add_mod (value mod _ * 256)), Z.mul_mod_idemp_l by lia.
  rewrite <- Z.add_mod by lia. reflexivity.
Qed.

(** C6: [dhcp_num_option] returns 0 for [NULL]; for a record it returns the
    fold of [value = (value << 8) | byte] over the payload bytes in order,
    from 0, in the fixed-width unsigned accumulator, which is the big-endian
    number the payload denotes modulo [2^w].  Hence an empty payload gives
    0 and the payload [0x01, 0x02] gives 0x0102. *)
Theorem C6_numeric_value (dm : data_model) (m : memory) :
  dhcp_num_option dm m NULL = 0 /\
  (forall opt : addr,
      dhcp_num_option dm m (Some opt)
      = numeric_value_spec dm (payload m opt)) /\
  (forall opt : addr,
      dhcp_num_option dm m (Some opt)
      = be_value (payload m opt) mod 2 ^ long_bits dm) /\
  (forall opt : addr,
      load m (opt + OFF_LEN) = 0 -> dhcp_num_option dm m (Some opt) = 0) /\
  (forall opt : addr,
      payload m opt = [1; 2] -> dhcp_num_option dm m (Some opt) = 258).
Proof.
  assert (Hspec : forall opt : addr,
             dhcp_num_option dm m (Some opt)
             = numeric_value_spec dm (payload m opt)).
  { intros opt. unfold dhcp_num_option, numeric_value_spec.
    rewrite num_loop_fold.
    rewrite <- (fold_num_step_spec dm (payload m opt) (payload_bytes m opt)).
    unfold payload. f_equal. }
  assert (Hbe : forall opt : addr,
             dhcp_num_option dm m (Some opt)
             = be_value (payload m opt) mod 2 ^ long_bits dm).
  { intros opt. rewrite Hspec. unfold numeric_value_spec, be_value.
    exact (fold_spec_be dm (payload m opt) (payload_bytes m opt) 0). }
  split; [reflexivity|].
  split; [assumption|].
  split; [assumption|].
  split.
  - intros opt Hlen. unfold dhcp_num_option. rewrite Hlen. reflexivity.
  - intros opt Hpay. rewrite Hbe, Hpay. destruct dm; reflexivity.
Qed.

Lemma C6_numeric_value_witness :
  payload sample_block 100 = [2] /\
  dhcp_num_option ILP32 sample_block (Some 100) = 2 /\
  dhcp_num_option ILP32 (mem_of_list 100 [53; 2; 1; 2]) (Some 100) = 258 /\
  dhcp_num_option ILP32 (mem_of_list 100 [53; 5; 255; 255; 255; 255; 255])
    (Some 100) = 2 ^ 32 - 1.
Proof.
  split; [vm_compute; reflexivity|].
  split.
  - destruct (C6_numeric_value ILP32 sample_block) as (_ & _ & Hbe & _).
    rewrite Hbe. vm_compute. reflexivity.
  - destruct (C6_numeric_value ILP32 (mem_of_list 100 [53; 2; 1; 2]))
      as (_ & _ & _ & _ & H12).
    split; [apply H12; vm_compute; reflexivity|].
    vm_compute. reflexivity.
Defined.

(** ** The registry *)

Lemma find_dhcp_option_unfold (dm : data_model) (fuel : nat) (tag : Z)
    (m : memory) (blks : addr -> dhcp_option_block.t) (l : list_head)
    (options : addr) :
  find_in_blocks dm fuel tag m blks (options :: l)
  = match scan_block dm fuel tag (mk_state m blks l) options with
    | None => None
    | Some (Some o) => Some (Some o)
    | Some None => find_in_blocks dm fuel tag m blks l
    end.
Proof. reflexivity. Qed.

(** The traversal returns the first match in the order of the list. *)
Lemma find_in_blocks_first (dm : data_model) (fuel : nat) (tag : Z)
    (m : memory) (blks : addr -> dhcp_option_block.t) (o : addr)
    (options : addr) (post : list_head) :
  forall pre : list_head,
    (forall b, In b pre ->
               scan_block dm fuel tag (mk_state m blks []) b = Some NULL) ->
    scan_block dm fuel tag (mk_state m blks []) options = Some (Some o) ->
    find_in_blocks dm fuel tag m blks (pre ++ options :: post)
    = Some (Some o).
Proof.
  induction pre as [|b pre IH]; intros Hpre Hscan.
  - simpl app. rewrite find_dhcp_option_unfold.
    unfold scan_block in *. simpl in *. now rewrite Hscan.
  - simpl app. rewrite find_dhcp_option_unfold.
    pose proof (Hpre b (or_introl eq_refl)) as Hb.
    unfold scan_block in *. simpl in *. rewrite Hb.
    apply IH; [|assumption].
    intros b' Hin. apply Hpre. now right.
Qed.

Lemma find_in_blocks_none (dm : data_model) (fuel : nat) (tag : Z)
    (m : memory) (blks : addr -> dhcp_option_block.t) :
  forall l : list_head,
    (forall b, In b l ->
               scan_block dm fuel tag (mk_state m blks []) b = Some NULL) ->
    find_in_blocks dm fuel tag m blks l = Some NULL.
Proof.
  induction l as [|b l IH]; intros Hall; [reflexivity|].
  rewrite find_dhcp_option_unfold.
  pose proof (Hall b (or_introl eq_refl)) as Hb.
  unfold scan_block in *. simpl in *. rewrite Hb.
  apply IH. intros b' Hin. apply Hall. now right.
Qed.

Lemma scan_block_registry (dm : data_model) (fuel : nat) (tag : Z)
    (st : state) (l : list_head) (b : addr) :
  scan_block dm fuel tag (mk_state (mem st) (blocks st) l) b
  = scan_block dm fuel tag st b.
Proof. reflexivity. Qed.

(** C7: [register_dhcp_options] puts a block in front of those registered
    before, and [find_dhcp_option] returns the first match in the order of
    the registry: after [B1] and then [B2] are registered, both holding a
    record with the tag, the record of [B2] is returned; and when the scan
    of every registered block finds nothing, the answer is [NULL]. *)
Theorem C7_most_recent_block_first (dm : data_model) (fuel : nat) (tag : Z)
    (st : state) :
  (forall b : addr,
      option_blocks (register_dhcp_options b st) = b :: option_blocks st) /\
  (forall (B1 B2 o1 o2 : addr),
      scan_block dm fuel tag st B1 = Some (Some o1) ->
      scan_block dm fuel tag st B2 = Some (Some o2) ->
      find_dhcp_option dm fuel tag
        (register_dhcp_options B2 (register_dhcp_options B1 st))
      = Some (Some o2)) /\
  (forall (pre post : list_head) (b o : addr),
      option_blocks st = pre ++ b :: post ->
      (forall b', In b' pre -> scan_block dm fuel tag st b' = Some NULL) ->
      scan_block dm fuel tag st b = Some (Some o) ->
      find_dhcp_option dm fuel tag st = Some (Some o)) /\
  ((forall b, In b (option_blocks st) ->
              scan_block dm fuel tag st b = Some NULL) ->
   find_dhcp_option dm fuel tag st = Some NULL).
Proof.
  split; [reflexivity|].
  split; [|split].
  - intros B1 B2 o1 o2 _ H2.
    unfold find_dhcp_option, register_dhcp_options, list_add. simpl.
    apply (find_in_blocks_first dm fuel tag (mem st) (blocks st) o2 B2
             (B1 :: option_blocks st) []).
    + intros b [].
    + exact H2.
  - intros pre post b o Hl Hpre Hb.
    unfold find_dhcp_option. rewrite Hl.
    now apply find_in_blocks_first.
  - intros Hall. unfold find_dhcp_option.
    now apply find_in_blocks_none.
Qed.

Lemma C7_most_recent_block_first_witness :
  scan_block ILP32 (scan_fuel 4) 53 two_blocks 1 = Some (Some 100) /\
  scan_block ILP32 (scan_fuel 4) 53 two_blocks 2 = Some (Some 200) /\
  find_dhcp_option ILP32 (scan_fuel 4) 53
    (register_dhcp_options 2 (register_dhcp_options 1 two_blocks))
  = Some (Some 200) /\
  find_dhcp_option ILP32 (scan_fuel 4) 53
    (register_dhcp_options 1 (register_dhcp_options 2 two_blocks))
  = Some (Some 100).
Proof.
  assert (H1 : scan_block ILP32 (scan_fuel 4) 53 two_blocks 1
               = Some (Some 100)) by (vm_compute; reflexivity).
  assert (H2 : scan_block ILP32 (scan_fuel 4) 53 two_blocks 2
               = Some (Some 200)) by (vm_compute; reflexivity).
  destruct (C7_most_recent_block_first ILP32 (scan_fuel 4) 53 two_blocks)
    as (_ & Hfirst & _).
  split; [exact H1|].
  split; [exact H2|].
  split.
  - exact (Hfirst 1 2 100 200 H1 H2).
  - exact (Hfirst 2 1 200 100 H2 H1).
Defined.

(** Modelled [list_del] leaves a list without the entry as it is. *)
Lemma list_del_absent (entry : addr) (head : list_head) :
  ~ In entry head -> list_del entry head = head.
Proof.
  induction head as [|e head IH]; intros Hnot; [reflexivity|].
  unfold list_del in *. simpl.
  destruct (Z.eqb_spec e entry) as [->|Hne].
  - exfalso. apply Hnot. now left.
  - simpl. f_equal. apply IH. intros Hin. apply Hnot. now right.
Qed.

(** C10: for a block that is not registered, [register_dhcp_options]
    followed by [unregister_dhcp_options] gives the state back as it was:
    the sequence of registered blocks is the same, and so is every answer
    of [find_dhcp_option]. *)
Theorem C10_register_then_unregister (st : state) (b : addr) :
  ~ In b (option_blocks st) ->
  unregister_dhcp_options b (register_dhcp_options b st) = st /\
  option_blocks (unregister_dhcp_options b (register_dhcp_options b st))
  = option_blocks st /\
  (forall (dm : data_model) (fuel : nat) (tag : Z),
      find_dhcp_option dm fuel tag
        (unregister_dhcp_options b (register_dhcp_options b st))
      = find_dhcp_option dm fuel tag st).
Proof.
  intros Hnot.
  assert (Hst : unregister_dhcp_options b (register_dhcp_options b st) = st).
  { destruct st as [m blks l].
    unfold unregister_dhcp_options, register_dhcp_options.
    cbn [mem blocks option_blocks] in *.
    f_equal. unfold list_add. unfold list_del at 1.
    cbn [filter]. rewrite Z.eqb_refl. cbn [negb].
    now apply list_del_absent. }
  split; [assumption|]. rewrite Hst. split; reflexivity.
Qed.

Lemma C10_register_then_unregister_witness :
  unregister_dhcp_options 2
    (register_dhcp_options 2 (register_dhcp_options 1 two_blocks))
  = register_dhcp_options 1 two_blocks.
Proof.
  apply (C10_register_then_unregister (register_dhcp_options 1 two_blocks) 2).
  simpl. intros [H|[]]. discriminate H.
Defined.

(** ** Allocation *)

(** C8: when the allocator succeeds and the capacity is positive,
    [alloc_dhcp_options] returns a block whose [len] is the capacity and
    whose first data byte is [DHCP_END], so that a scan of the block for any
    tag returns [NULL]; when the allocator fails, [alloc_dhcp_options]
    returns [NULL] and leaves the state as it is. *)
Theorem C8_alloc_empty_block (dm : data_model)
    (sizeof_options offsetof_data offsetof_len : Z)
    (malloc : Z -> ptr) (len : Z) (st : state) :
  0 < len < SIZE_MODULUS dm ->
  (forall options : addr,
      malloc (to_size dm (sizeof_options + len)) = Some options ->
      fst (alloc_dhcp_options dm sizeof_options offsetof_data offsetof_len
             malloc len st)
      = Some options /\
      dhcp_option_block.len
        (blocks (snd (alloc_dhcp_options dm sizeof_options offsetof_data
                        offsetof_len malloc len st))
           options) = len /\
      load (mem (snd (alloc_dhcp_options dm sizeof_options offsetof_data
                        offsetof_len malloc len st)))
        (dhcp_option_block.data
           (blocks (snd (alloc_dhcp_options dm sizeof_options offsetof_data
                           offsetof_len malloc len st))
              options) + OFF_TAG) = DHCP_END /\
      (forall (tag : Z) (fuel : nat),
          (0 < fuel)%nat ->
          scan_block dm fuel tag
            (snd (alloc_dhcp_options dm sizeof_options offsetof_data
                    offsetof_len malloc len st))
            options = Some NULL)) /\
  (malloc (to_size dm (sizeof_options + len)) = NULL ->
   alloc_dhcp_options dm sizeof_options offsetof_data offsetof_len
     malloc len st = (NULL, st)).
Proof.
  intros Hlen. split.
  - intros options Hmalloc. unfold alloc_dhcp_options, scan_block.
    rewrite Hmalloc. simpl fst. simpl snd. cbn [blocks mem].
    rewrite Z.eqb_refl. cbn [dhcp_option_block.len dhcp_option_block.data].
    destruct (Z.eqb_spec len 0) as [Hz|Hz]; [lia|].
    set (m2 := store_word dm
                 (store_word dm (mem st) (options + offsetof_data)
                    (options + sizeof_options))
                 (options + offsetof_len) len).
    assert (Hend : load (store m2 (options + sizeof_options + OFF_TAG)
                           DHCP_END)
                     (options + sizeof_options + OFF_TAG) = DHCP_END).
    { apply load_store_same. unfold DHCP_END. lia. }
    split; [reflexivity|]. split; [reflexivity|].
    split; [exact Hend|].
    intros tag fuel Hfuel. destruct fuel as [|fuel]; [lia|].
    unfold find_dhcp_option_raw. rewrite scan_loop_S.
    rewrite step_outcome_end; [reflexivity|exact Hend].
  - intros Hmalloc. unfold alloc_dhcp_options.
    unfold NULL in Hmalloc. now rewrite Hmalloc.
Qed.

Lemma C8_alloc_empty_block_witness :
  fst (alloc_dhcp_options ILP32 16 8 12 malloc_at_1000 2 two_blocks)
  = Some 1000 /\
  scan_block ILP32 (scan_fuel 2) 53
    (snd (alloc_dhcp_options ILP32 16 8 12 malloc_at_1000 2 two_blocks)) 1000
  = Some NULL /\
  alloc_dhcp_options ILP32 16 8 12 malloc_fails 2 two_blocks
  = (NULL, two_blocks).
Proof.
  assert (Hlen : 0 < 2 < SIZE_MODULUS ILP32) by (vm_compute; auto).
  destruct (C8_alloc_empty_block ILP32 16 8 12 malloc_at_1000 2 two_blocks
              Hlen) as [Hok _].
  destruct (C8_alloc_empty_block ILP32 16 8 12 malloc_fails 2 two_blocks
              Hlen) as [_ Hfail].
  destruct (Hok 1000 eq_refl) as (Hptr & _ & _ & Hscan).
  split; [exact Hptr|].
  split; [apply Hscan; unfold scan_fuel; lia|].
  apply Hfail. reflexivity.
Defined.

(** * Further properties of the scan *)

(** ** Which bytes the scan reads *)

Lemma scan_loop_reads_inside (dm : data_model) (m : memory) (fuel : nat) :
  forall (tag : Z) (opt : addr) (remaining : Z) (a : addr),
    0 <= remaining <= SSIZE_MAX dm ->
    In a (reads (scan_loop dm fuel tag opt remaining m)) ->
    0 < remaining /\
    opt <= a <= opt + remaining /\
    (a = opt + remaining ->
     load m (a - 1) <> DHCP_END /\ load m (a - 1) <> DHCP_PAD).
Proof.
  induction fuel as [|fuel IH]; intros tag opt remaining a Hr Hin.
  - destruct Hin.
  - apply scan_loop_reads_S in Hin. destruct Hin as [Hin|Hin].
    + apply scan_step_reads in Hin. unfold OFF_TAG, OFF_LEN in Hin.
      destruct Hin as [Hnz [->|(-> & He & Hp)]].
      * split; [lia|]. split; [lia|]. intros Heq. lia.
      * split; [lia|]. split; [lia|]. intros _.
        replace (opt + 1 - 1) with (opt + 0) by lia. now split.
    + pose proof (step_outcome_next dm m tag opt remaining Hr) as Hnext.
      pose proof (option_len_at_range m opt) as Hol.
      destruct (step_outcome dm m tag opt remaining) as [p|o r|t d l].
      * destruct Hin.
      * destruct Hnext as (-> & -> & Hr').
        apply IH in Hin; [|lia]. destruct Hin as (_ & Hb & Hend).
        split; [lia|]. split; [lia|]. intros Heq. apply Hend. lia.
      * destruct Hnext as (_ & -> & _ & Hl0 & Hl).
        rewrite to_ssize_id in Hin by (pose proof (SSIZE_MAX_large dm); lia).
        apply IH in Hin; [|lia]. destruct Hin as (_ & Hb & Hend).
        unfold OFF_DATA in *. split; [lia|]. split; [lia|].
        intros Heq. apply Hend. lia.
Qed.

(** X1: [find_dhcp_option_raw] reads no address below [data] and none above
    [data + len]; it reads [data + len], the first byte after the block,
    only when the block is not empty and its last byte is neither
    [DHCP_END] nor [DHCP_PAD]. *)
Theorem X1_reads_characterised (dm : data_model) (m : memory) (fuel : nat)
    (tag : Z) (data : addr) (len : Z) (a : addr) :
  0 <= len <= SSIZE_MAX dm ->
  In a (reads (find_dhcp_option_raw dm fuel tag data len m)) ->
  data <= a <= data + len /\
  (a = data + len ->
   0 < len /\
   load m (data + len - 1) <> DHCP_END /\
   load m (data + len - 1) <> DHCP_PAD).
Proof.
  intros Hlen Hin. unfold find_dhcp_option_raw in Hin.
  rewrite to_ssize_id in Hin by lia.
  apply scan_loop_reads_inside in Hin; [|assumption].
  destruct Hin as (Hpos & Hb & Hend). split; [assumption|].
  intros ->. destruct (Hend eq_refl) as [He Hp]. now repeat split.
Qed.

Lemma X1_reads_characterised_witness :
  In 101 (reads (find_dhcp_option_raw ILP32 (scan_fuel 1) 53 100 1 cut_block))
  /\ 100 <= 101 <= 100 + 1
  /\ load cut_block (100 + 1 - 1) <> DHCP_END.
Proof.
  assert (Hin : In 101 (reads (find_dhcp_option_raw ILP32 (scan_fuel 1) 53
                                 100 1 cut_block))).
  { vm_compute. auto. }
  split; [exact Hin|].
  destruct (X1_reads_characterised ILP32 cut_block (scan_fuel 1) 53 100 1 101)
    as [Hb Hend].
  - vm_compute. split; discriminate.
  - exact Hin.
  - split; [exact Hb|]. apply Hend. reflexivity.
Defined.

(** ** The answer depends on the bytes of the block only *)

Lemma option_len_at_ge_2 (m : memory) (opt : addr) :
  load m (opt + OFF_TAG) <> DHCP_END ->
  load m (opt + OFF_TAG) <> DHCP_PAD ->
  2 <= option_len_at m opt.
Proof.
  intros He Hp. rewrite option_len_at_plain by assumption.
  pose proof (load_range m (opt + OFF_LEN)). lia.
Qed.

(** A turn of the loop comes out the same in two memories that hold the same
    remaining bytes: the length byte that may lie behind them only serves to
    find that the record does not fit. *)
Lemma step_outcome_agree (dm : data_model) (m m' : memory) (tag : Z)
    (opt : addr) (remaining : Z) :
  0 <= remaining <= SSIZE_MAX dm ->
  agree m m' opt remaining ->
  step_outcome dm m tag opt remaining = step_outcome dm m' tag opt remaining.
Proof.
  intros Hr Hag.
  destruct (Z.eq_dec remaining 0) as [->|Hnz]; [reflexivity|].
  assert (Htag : load m (opt + OFF_TAG) = load m' (opt + OFF_TAG)).
  { apply Hag. unfold OFF_TAG. lia. }
  destruct (Z.eq_dec remaining 1) as [->|Hne1].
  - (* the length byte lies behind the remaining byte *)
    destruct (Z.eq_dec (load m (opt + OFF_TAG)) DHCP_END) as [He|He].
    { rewrite !step_outcome_end; congruence. }
    destruct (Z.eq_dec (load m (opt + OFF_TAG)) DHCP_PAD) as [Hp|Hp].
    + unfold step_outcome, option_len_at. rewrite <- !Htag.
      destruct (Z.eqb_spec (load m (opt + OFF_TAG)) DHCP_END);
        [contradiction|].
      destruct (Z.eqb_spec (load m (opt + OFF_TAG)) DHCP_PAD);
        [|contradiction].
      cbn [orb].
      destruct (1 =? 0); [reflexivity|].
      destruct (to_ssize dm (1 - 1) <? 0); [reflexivity|].
      destruct (load m (opt + OFF_TAG) =? tag); [reflexivity|].
      destruct (Z.eqb_spec (DHCP_ENCAPSULATOR tag) 0); [reflexivity|].
      destruct (Z.eqb_spec (load m (opt + OFF_TAG)) (DHCP_ENCAPSULATOR tag));
        [|reflexivity].
      unfold DHCP_PAD in *. congruence.
    + rewrite !step_outcome_overrun; try reflexivity; try assumption.
      * pose proof (option_len_at_ge_2 m' opt). rewrite <- Htag in H.
        specialize (H He Hp). lia.
      * pose proof (option_len_at_ge_2 m opt He Hp). lia.
  - assert (Hlen : load m (opt + OFF_LEN) = load m' (opt + OFF_LEN)).
    { apply Hag. unfold OFF_LEN. lia. }
    unfold step_outcome, option_len_at. now rewrite <- Htag, <- Hlen.
Qed.

Lemma agree_within (m m' : memory) (a a' : addr) (n n' : Z) :
  agree m m' a n -> a <= a' -> a' + n' <= a + n -> agree m m' a' n'.
Proof. intros Hag Ha Hn x Hx. apply Hag. lia. Qed.

Lemma scan_loop_agree (dm : data_model) (m m' : memory) (fuel : nat) :
  forall (tag : Z) (opt : addr) (remaining : Z),
    0 <= remaining <= SSIZE_MAX dm ->
    agree m m' opt remaining ->
    result (scan_loop dm fuel tag opt remaining m)
    = result (scan_loop dm fuel tag opt remaining m').
Proof.
  induction fuel as [|fuel IH]; intros tag opt remaining Hr Hag;
    [reflexivity|].
  rewrite !scan_loop_S.
  rewrite <- (step_outcome_agree dm m m' tag opt remaining Hr Hag).
  pose proof (step_outcome_next dm m tag opt remaining Hr) as Hnext.
  pose proof (option_len_at_range m opt) as Hol.
  destruct (step_outcome dm m tag opt remaining) as [p|o r|t d l].
  - reflexivity.
  - destruct Hnext as (-> & -> & Hr').
    apply IH; [lia|]. apply (agree_within m m' opt _ remaining); [assumption| |];
      lia.
  - destruct Hnext as (_ & -> & _ & Hl0 & Hl).
    ssize_small.
    apply IH; [pose proof (SSIZE_MAX_large dm); lia|].
    apply (agree_within m m' opt _ remaining); [assumption| |];
      unfold OFF_DATA; lia.
Qed.

(** X2: the answer of [find_dhcp_option_raw] is the same in two memories
    that hold the same [len] bytes from [data] on; no byte outside the block
    has a part in it, the length byte read behind the block included. *)
Theorem X2_answer_depends_on_block_only (dm : data_model) (m m' : memory)
    (fuel : nat) (tag : Z) (data : addr) (len : Z) :
  0 <= len <= SSIZE_MAX dm ->
  agree m m' data len ->
  result (find_dhcp_option_raw dm fuel tag data len m)
  = result (find_dhcp_option_raw dm fuel tag data len m').
Proof.
  intros Hlen Hag. unfold find_dhcp_option_raw.
  rewrite to_ssize_id by lia. now apply scan_loop_agree.
Qed.

Lemma X2_answer_depends_on_block_only_witness :
  load padded_block 105 <> load (mem_of_list 100 [7; 7; 53; 1; 2; 255]) 105 /\
  result (find_dhcp_option_raw ILP32 (scan_fuel 3) 53 102 3 padded_block)
  = result (find_dhcp_option_raw ILP32 (scan_fuel 3) 53 102 3
              (mem_of_list 100 [7; 7; 53; 1; 2; 255])).
Proof.
  split; [vm_compute; discriminate|].
  apply X2_answer_depends_on_block_only.
  - vm_compute. split; discriminate.
  - intros x Hx.
    assert (Hcases : x = 102 \/ x = 103 \/ x = 104) by lia.
    destruct Hcases as [-> | [-> | ->]]; vm_compute; reflexivity.
Defined.

(** ** What a found record is *)

Lemma step_outcome_found_inv (dm : data_model) (m : memory) (tag : Z)
    (opt : addr) (remaining : Z) (p : addr) :
  0 <= remaining <= SSIZE_MAX dm ->
  step_outcome dm m tag opt remaining = Return (Some p) ->
  p = opt /\ load m (opt + OFF_TAG) = tag /\
  load m (opt + OFF_TAG) <> DHCP_END /\
  option_len_at m opt <= remaining.
Proof.
  intros Hr. unfold step_outcome.
  rewrite (remaining_no_wrap dm m opt remaining Hr).
  destruct (remaining =? 0); [discriminate|].
  destruct (Z.eqb_spec (load m (opt + OFF_TAG)) DHCP_END); [discriminate|].
  destruct (Z.ltb_spec (remaining - option_len_at m opt) 0); [discriminate|].
  destruct (Z.eqb_spec (load m (opt + OFF_TAG)) tag).
  - intros Heq. inversion Heq as [Hp]. subst p.
    repeat split; try assumption. lia.
  - destruct (_ && _); discriminate.
Qed.

Lemma step_outcome_recurse_inv (dm : data_model) (m : memory) (tag : Z)
    (opt : addr) (remaining : Z) (t : Z) (d : addr) (l : Z) :
  step_outcome dm m tag opt remaining = Recurse t d l ->
  DHCP_ENCAPSULATOR tag <> 0 /\
  load m (opt + OFF_TAG) = DHCP_ENCAPSULATOR tag.
Proof.
  unfold step_outcome.
  destruct (remaining =? 0); [discriminate|].
  destruct (load m (opt + OFF_TAG) =? DHCP_END); [discriminate|].
  destruct (_ <? 0); [discriminate|].
  destruct (load m (opt + OFF_TAG) =? tag); [discriminate|].
  destruct (Z.eqb_spec (DHCP_ENCAPSULATOR tag) 0); [discriminate|].
  destruct (Z.eqb_spec (load m (opt + OFF_TAG)) (DHCP_ENCAPSULATOR tag));
    [|discriminate].
  intros _. now split.
Qed.

Lemma DHCP_ENCAPSULATED_range (t : Z) : 0 <= DHCP_ENCAPSULATED t < 256.
Proof.
  unfold DHCP_ENCAPSULATED. change 255 with (Z.ones 8).
  rewrite Z.land_ones by lia. change (2 ^ 8) with 256.
  apply Z.mod_pos_bound. lia.
Qed.

Lemma scan_loop_found (dm : data_model) (m : memory) (fuel : nat) :
  forall (tag : Z) (opt : addr) (remaining : Z) (p : addr),
    0 <= remaining <= SSIZE_MAX dm ->
    result (scan_loop dm fuel tag opt remaining m) = Some (Some p) ->
    opt <= p /\ p + option_len_at m p <= opt + remaining /\
    load m (p + OFF_TAG) <> DHCP_END /\
    (load m (p + OFF_TAG) = tag \/
     (DHCP_ENCAPSULATOR tag <> 0 /\
      load m (p + OFF_TAG) = DHCP_ENCAPSULATED tag)).
Proof.
  induction fuel as [|fuel IH]; intros tag opt remaining p Hr Hres;
    [discriminate|].
  rewrite scan_loop_S in Hres.
  pose proof (step_outcome_next dm m tag opt remaining Hr) as Hnext.
  pose proof (step_outcome_found_inv dm m tag opt remaining) as Hfound.
  pose proof (step_outcome_recurse_inv dm m tag opt remaining) as Hrec.
  pose proof (option_len_at_range m opt) as Hol.
  destruct (step_outcome dm m tag opt remaining) as [q|o r|t d l].
  - inversion Hres; subst q.
    destruct (Hfound p Hr eq_refl) as (-> & Htag & He & Hfit).
    repeat split; try assumption; lia.
  - destruct Hnext as (-> & -> & Hr').
    apply IH in Hres; [|lia].
    destruct Hres as (Hp & Hfit & He & Htag).
    repeat split; try assumption; lia.
  - destruct Hnext as (-> & -> & _ & Hl0 & Hl).
    destruct (Hrec _ _ _ eq_refl) as [Hz _].
    rewrite to_ssize_id in Hres by (pose proof (SSIZE_MAX_large dm); lia).
    apply IH in Hres; [|pose proof (SSIZE_MAX_large dm); lia].
    destruct Hres as (Hp & Hfit & He & Htag).
    unfold OFF_DATA in *.
    repeat split; try assumption; try lia.
    right. split; [assumption|].
    destruct Htag as [Htag|[Hne _]]; [assumption|].
    exfalso. apply Hne. apply DHCP_ENCAPSULATOR_plain.
    apply DHCP_ENCAPSULATED_range.
Qed.

(** X3: a record that [find_dhcp_option_raw] returns lies within the data
    block with all of its on-wire length, so with its payload when its tag
    is not [DHCP_PAD]; its tag byte is not [DHCP_END], and it is the tag
    looked for or, for a composite tag, the encapsulated part of it. *)
Theorem X3_found_record_inside_block (dm : data_model) (m : memory)
    (fuel : nat) (tag : Z) (data : addr) (len : Z) (p : addr) :
  0 <= len <= SSIZE_MAX dm ->
  result (find_dhcp_option_raw dm fuel tag data len m) = Some (Some p) ->
  data <= p /\
  p + option_len_at m p <= data + len /\
  (load m (p + OFF_TAG) <> DHCP_PAD ->
   p + OFF_DATA + load m (p + OFF_LEN) <= data + len) /\
  load m (p + OFF_TAG) <> DHCP_END /\
  (load m (p + OFF_TAG) = tag \/
   (DHCP_ENCAPSULATOR tag <> 0 /\
    load m (p + OFF_TAG) = DHCP_ENCAPSULATED tag)).
Proof.
  intros Hlen Hres. unfold find_dhcp_option_raw in Hres.
  rewrite to_ssize_id in Hres by lia.
  apply scan_loop_found in Hres; [|assumption].
  destruct Hres as (Hp & Hfit & He & Htag).
  repeat split; try assumption.
  intros Hpad. rewrite option_len_at_plain in Hfit by assumption.
  unfold OFF_DATA. lia.
Qed.

Lemma X3_found_record_inside_block_witness :
  result (find_dhcp_option_raw ILP32 (scan_fuel 13) (DHCP_ENCAP_OPT 43 1)
            100 13 nested_block) = Some (Some 106) /\
  100 <= 106 /\
  106 + option_len_at nested_block 106 <= 100 + 13 /\
  load nested_block (106 + OFF_TAG) = DHCP_ENCAPSULATED (DHCP_ENCAP_OPT 43 1).
Proof.
  assert (Hres : result (find_dhcp_option_raw ILP32 (scan_fuel 13)
                           (DHCP_ENCAP_OPT 43 1) 100 13 nested_block)
                 = Some (Some 106)) by (vm_compute; reflexivity).
  split; [exact Hres|].
  destruct (X3_found_record_inside_block ILP32 nested_block (scan_fuel 13)
              (DHCP_ENCAP_OPT 43 1) 100 13 106) as (Hp & Hfit & _ & _ & _).
  - vm_compute. split; discriminate.
  - exact Hres.
  - split; [exact Hp|]. split; [exact Hfit|]. vm_compute. reflexivity.
Defined.

(** ** The walk over the records *)

Lemma record_at_ge (m : memory) (k : nat) :
  forall data : addr, data <= record_at m data k.
Proof.
  induction k as [|k IH]; intros data; simpl; [lia|].
  pose proof (IH (data + option_len_at m data)).
  pose proof (option_len_at_range m data). lia.
Qed.

(** Over a record that fits and whose tag is of no interest the loop steps
    to the next one. *)
Lemma step_outcome_skip (dm : data_model) (m : memory) (tag : Z)
    (opt : addr) (remaining : Z) :
  0 <= remaining <= SSIZE_MAX dm ->
  skipped tag (load m (opt + OFF_TAG)) ->
  option_len_at m opt <= remaining ->
  step_outcome dm m tag opt remaining
  = Continue (opt + option_len_at m opt) (remaining - option_len_at m opt).
Proof.
  intros Hr (He & Htag & Hen) Hfit. unfold step_outcome.
  rewrite (remaining_no_wrap dm m opt remaining Hr).
  pose proof (option_len_at_range m opt).
  destruct (Z.eqb_spec remaining 0); [lia|].
  destruct (Z.eqb_spec (load m (opt + OFF_TAG)) DHCP_END); [contradiction|].
  destruct (Z.ltb_spec (remaining - option_len_at m opt) 0); [lia|].
  destruct (Z.eqb_spec (load m (opt + OFF_TAG)) tag); [contradiction|].
  destruct (Z.eqb_spec (DHCP_ENCAPSULATOR tag) 0); [reflexivity|].
  destruct (Z.eqb_spec (load m (opt + OFF_TAG)) (DHCP_ENCAPSULATOR tag));
    [|reflexivity].
  destruct Hen; contradiction.
Qed.

Lemma walk_reaches (dm : data_model) (m : memory) (tag : Z) (k : nat) :
  forall (opt : addr) (remaining : Z),
    0 <= remaining <= SSIZE_MAX dm ->
    (forall i : nat,
        (i < k)%nat -> skipped tag (load m (record_at m opt i + OFF_TAG))) ->
    record_at m opt k <= opt + remaining ->
    scan_reaches dm m (mk_scan_state tag opt remaining)
      (mk_scan_state tag (record_at m opt k)
         (opt + remaining - record_at m opt k)).
Proof.
  induction k as [|k IH]; intros opt remaining Hr Hskip Hfit.
  - simpl. replace (opt + remaining - opt) with remaining by lia.
    apply reaches_here.
  - simpl in Hfit |- *.
    pose proof (record_at_ge m k (opt + option_len_at m opt)) as Hge.
    pose proof (option_len_at_range m opt) as Hol.
    apply (reaches_next dm m _
             (mk_scan_state tag (opt + option_len_at m opt)
                (remaining - option_len_at m opt))).
    + unfold next_state. rewrite step_at_outcome. simpl.
      rewrite step_outcome_skip; [reflexivity|assumption| |lia].
      apply (Hskip O). lia.
    + replace (opt + remaining - record_at m (opt + option_len_at m opt) k)
        with (opt + option_len_at m opt + (remaining - option_len_at m opt)
              - record_at m (opt + option_len_at m opt) k) by lia.
      apply IH; [lia| |lia].
      intros i Hi. apply (Hskip (S i)). lia.
Qed.

Lemma walk_reaches_init (dm : data_model) (m : memory) (tag : Z) (k : nat)
    (data : addr) (len : Z) :
  0 <= len <= SSIZE_MAX dm ->
  (forall i : nat,
      (i < k)%nat -> skipped tag (load m (record_at m data i + OFF_TAG))) ->
  record_at m data k <= data + len ->
  scan_reaches dm m (scan_init dm tag data len)
    (mk_scan_state tag (record_at m data k)
       (data + len - record_at m data k)).
Proof.
  intros Hlen Hskip Hfit. unfold scan_init. rewrite to_ssize_id by lia.
  now apply walk_reaches.
Qed.

(** X4: when the first [k] records of the walk carry neither the end marker
    nor the tag looked for nor its encapsulator, and the next record carries
    the tag and lies within the block with all of its on-wire length,
    [find_dhcp_option_raw] returns that record: the first match wins. *)
Theorem X4_first_matching_record (dm : data_model) (m : memory) (fuel : nat)
    (tag : Z) (data : addr) (len : Z) (k : nat) :
  0 <= len <= SSIZE_MAX dm ->
  (forall i : nat,
      (i < k)%nat -> skipped tag (load m (record_at m data i + OFF_TAG))) ->
  load m (record_at m data k + OFF_TAG) = tag ->
  tag <> DHCP_END ->
  record_at m data k + option_len_at m (record_at m data k) <= data + len ->
  (Z.to_nat len < fuel)%nat ->
  result (find_dhcp_option_raw dm fuel tag data len m)
  = Some (Some (record_at m data k)).
Proof.
  intros Hlen Hskip Htag Hne Hfit Hfuel.
  pose proof (option_len_at_range m (record_at m data k)) as Hol.
  pose proof (record_at_ge m k data) as Hge.
  apply (scan_returns dm m tag data len
           (mk_scan_state tag (record_at m data k)
              (data + len - record_at m data k)));
    try assumption.
  - apply walk_reaches_init; [assumption|assumption|lia].
  - rewrite step_at_outcome. simpl.
    apply step_outcome_match; [lia|congruence|lia|assumption].
Qed.

Lemma X4_first_matching_record_witness :
  record_at padded_block 100 3 = 105 /\
  result (find_dhcp_option_raw ILP32 (scan_fuel 10) 60 100 10 padded_block)
  = Some (Some (record_at padded_block 100 3)).
Proof.
  split; [vm_compute; reflexivity|].
  apply (X4_first_matching_record ILP32 padded_block (scan_fuel 10) 60 100 10
           3).
  - vm_compute. split; discriminate.
  - intros i Hi.
    destruct i as [|[|[|i]]]; [| | |lia];
      (repeat split; [vm_compute; discriminate|vm_compute; discriminate|];
       left; vm_compute; reflexivity).
  - vm_compute. reflexivity.
  - vm_compute. discriminate.
  - vm_compute. discriminate.
  - unfold scan_fuel. simpl. lia.
Defined.

(** X5: when the first [k] records of the walk carry neither the end marker
    nor the tag looked for nor its encapsulator, and what follows them is the
    end of the block, the end marker, or a record that does not fit in the
    rest of the block, [find_dhcp_option_raw] returns [NULL]. *)
Theorem X5_no_matching_record (dm : data_model) (m : memory) (fuel : nat)
    (tag : Z) (data : addr) (len : Z) (k : nat) :
  0 <= len <= SSIZE_MAX dm ->
  (forall i : nat,
      (i < k)%nat -> skipped tag (load m (record_at m data i + OFF_TAG))) ->
  record_at m data k <= data + len ->
  record_at m data k = data + len \/
  load m (record_at m data k + OFF_TAG) = DHCP_END \/
  data + len < record_at m data k + option_len_at m (record_at m data k) ->
  (Z.to_nat len < fuel)%nat ->
  result (find_dhcp_option_raw dm fuel tag data len m) = Some NULL.
Proof.
  intros Hlen Hskip Hfit Hstop Hfuel.
  pose proof (record_at_ge m k data) as Hge.
  apply (scan_returns dm m tag data len
           (mk_scan_state tag (record_at m data k)
              (data + len - record_at m data k)));
    try assumption.
  - now apply walk_reaches_init.
  - rewrite step_at_outcome. simpl.
    destruct Hstop as [Hend|[Hmark|Hover]].
    + rewrite Hend. replace (data + len - (data + len)) with 0 by lia.
      reflexivity.
    + now apply step_outcome_end.
    + apply step_outcome_overrun; lia.
Qed.

Lemma X5_no_matching_record_witness :
  record_at padded_block 100 4 = 109 /\
  result (find_dhcp_option_raw ILP32 (scan_fuel 10) 61 100 10 padded_block)
  = Some NULL.
Proof.
  split; [vm_compute; reflexivity|].
  apply (X5_no_matching_record ILP32 padded_block (scan_fuel 10) 61 100 10 4).
  - vm_compute. split; discriminate.
  - intros i Hi.
    destruct i as [|[|[|[|i]]]]; [| | | |lia];
      (repeat split; [vm_compute; discriminate|vm_compute; discriminate|];
       left; vm_compute; reflexivity).
  - vm_compute. discriminate.
  - right. left. vm_compute. reflexivity.
  - unfold scan_fuel. simpl. lia.
Defined.

(** ** Data laid out as the wire format prescribes *)

Lemma mem_holds_nth (m : memory) (a : addr) (bs : list Z) :
  mem_holds m a bs = true ->
  forall i : nat,
    (i < length bs)%nat -> load m (a + Z.of_nat i) = nth i bs 0.
Proof.
  unfold mem_holds. rewrite forallb_forall. intros H i Hi.
  apply Z.eqb_eq. apply H. apply in_seq. lia.
Qed.

Lemma mem_holds_intro (m : memory) (a : addr) (bs : list Z) :
  (forall i : nat,
      (i < length bs)%nat -> load m (a + Z.of_nat i) = nth i bs 0) ->
  mem_holds m a bs = true.
Proof.
  intros H. unfold mem_holds. rewrite forallb_forall. intros i Hi.
  apply in_seq in Hi. apply Z.eqb_eq. apply H. lia.
Qed.

Lemma mem_holds_app (m : memory) (a : addr) (xs ys : list Z) :
  mem_holds m a (xs ++ ys) = true ->
  mem_holds m a xs = true /\
  mem_holds m (a + Z.of_nat (length xs)) ys = true.
Proof.
  intros H. pose proof (mem_holds_nth m a _ H) as Hn.
  split; apply mem_holds_intro; intros i Hi.
  - rewrite Hn by (rewrite length_app; lia).
    now rewrite app_nth1.
  - replace (a + Z.of_nat (length xs) + Z.of_nat i)
      with (a + Z.of_nat (length xs + i)) by lia.
    rewrite Hn by (rewrite length_app; lia).
    rewrite app_nth2 by lia. f_equal. lia.
Qed.

Lemma mem_holds_head (m : memory) (a : addr) (b : Z) (bs : list Z) :
  mem_holds m a (b :: bs) = true -> load m a = b.
Proof.
  intros H. pose proof (mem_holds_nth m a _ H O) as H0.
  simpl in H0. rewrite Z.add_0_r in H0. apply H0. lia.
Qed.

Lemma encode_cons (r : wire_record) (rs : list wire_record) :
  encode (r :: rs) = encode_record r ++ encode rs.
Proof. reflexivity. Qed.

Lemma encode_single (r : wire_record) : encode [r] = encode_record r.
Proof. unfold encode. simpl. apply app_nil_r. Qed.

Lemma encode_app (rs rs' : list wire_record) :
  encode (rs ++ rs') = encode rs ++ encode rs'.
Proof. unfold encode. apply flat_map_app. Qed.

Lemma record_tag_byte (r : wire_record) :
  wf_record r -> 0 <= record_tag r < 255.
Proof.
  destruct r as [|t pl]; simpl; [unfold DHCP_PAD; lia|]. intros (Ht & _). lia.
Qed.

(** In memory that holds a record, [dhcp_option_len] gives the number of
    its bytes. *)
Lemma option_len_at_encoded (m : memory) (a : addr) (r : wire_record)
    (rest : list Z) :
  wf_record r ->
  mem_holds m a (encode_record r ++ rest) = true ->
  load m (a + OFF_TAG) = record_tag r /\
  option_len_at m a = Z.of_nat (length (encode_record r)).
Proof.
  intros Hwf H. unfold OFF_TAG. rewrite Z.add_0_r.
  destruct r as [|t pl].
  - simpl in H. apply mem_holds_head in H.
    split; [assumption|].
    unfold option_len_at, OFF_TAG. rewrite Z.add_0_r, H. reflexivity.
  - destruct Hwf as (Ht & Hlen & _).
    pose proof (mem_holds_nth m a _ H 0%nat) as H0.
    pose proof (mem_holds_nth m a _ H 1%nat) as H1.
    simpl in H0, H1. rewrite Z.add_0_r in H0.
    specialize (H0 ltac:(lia)). specialize (H1 ltac:(lia)).
    split; [assumption|].
    rewrite option_len_at_plain;
      unfold OFF_TAG, OFF_LEN, DHCP_END, DHCP_PAD;
      rewrite ?Z.add_0_r, ?H0; try lia.
    rewrite H1. simpl length. lia.
Qed.

(** The walk over memory that holds encoded records passes over them one by
    one. *)
Lemma encode_walk (m : memory) (rs : list wire_record) (rest : list Z) :
  forall a : addr,
    Forall wf_record rs ->
    mem_holds m a (encode rs ++ rest) = true ->
    record_at m a (length rs) = a + Z.of_nat (length (encode rs)) /\
    (forall i : nat,
        (i < length rs)%nat ->
        load m (record_at m a i + OFF_TAG) = record_tag (nth i rs Pad)).
Proof.
  induction rs as [|r rs IH]; intros a Hwf H.
  - simpl. split; [lia|]. intros i Hi. lia.
  - inversion Hwf as [|? ? Hr Hrs]; subst.
    rewrite encode_cons, <- app_assoc in H.
    destruct (option_len_at_encoded m a r _ Hr H) as [Htag Hol].
    apply mem_holds_app in H. destruct H as [_ H].
    rewrite <- Hol in H.
    destruct (IH (a + option_len_at m a) Hrs H) as [Hend Htags].
    split.
    + simpl record_at. rewrite Hend, encode_cons, length_app. lia.
    + intros [|i] Hi; simpl in *; [assumption|]. apply Htags. lia.
Qed.

(** The payload read back from memory that holds a record is the payload
    of the record. *)
Lemma payload_encoded (m : memory) (a : addr) (t : Z) (pl rest : list Z) :
  wf_record (Opt t pl) ->
  mem_holds m a (encode_record (Opt t pl) ++ rest) = true ->
  payload m a = pl.
Proof.
  intros (Ht & Hlen & Hbytes) H.
  pose proof (mem_holds_nth m a _ H) as Hn.
  assert (Hl : load m (a + OFF_LEN) = Z.of_nat (length pl)).
  { pose proof (Hn 1%nat) as H1. simpl in H1. apply H1. lia. }
  unfold payload. rewrite Hl, Nat2Z.id.
  apply (nth_ext _ _ 0 0).
  - now rewrite length_map, length_seq.
  - intros i Hi. rewrite length_map, length_seq in Hi.
    rewrite (nth_indep _ 0 (load m (a + OFF_DATA + Z.of_nat 0)))
      by (rewrite length_map, length_seq; lia).
    rewrite (map_nth (fun i => load m (a + OFF_DATA + Z.of_nat i))).
    rewrite seq_nth by lia. simpl Nat.add.
    unfold OFF_DATA.
    replace (a + 2 + Z.of_nat i) with (a + Z.of_nat (S (S i))) by lia.
    rewrite Hn by (rewrite length_app; simpl; lia).
    simpl. now rewrite app_nth1 by lia.
Qed.

Lemma skipped_plain (T : Z) (r : wire_record) :
  0 < T < 255 -> wf_record r -> record_tag r <> T ->
  skipped T (record_tag r).
Proof.
  intros HT Hwf Hne. pose proof (record_tag_byte r Hwf).
  repeat split; [unfold DHCP_END; lia|assumption|].
  left. apply DHCP_ENCAPSULATOR_plain. lia.
Qed.

Lemma skipped_composite (E S : Z) (r : wire_record) :
  0 < E < 255 -> 0 <= S < 256 -> wf_record r -> record_tag r <> E ->
  skipped (DHCP_ENCAP_OPT E S) (record_tag r).
Proof.
  intros HE HS Hwf Hne. pose proof (record_tag_byte r Hwf) as Hb.
  repeat split; [unfold DHCP_END; lia| |].
  - intros Heq.
    pose proof (DHCP_ENCAPSULATOR_ENCAP_OPT E S HS) as Hen.
    rewrite <- Heq, DHCP_ENCAPSULATOR_plain in Hen by lia. lia.
  - right. now rewrite DHCP_ENCAPSULATOR_ENCAP_OPT.
Qed.

Lemma Forall_nth_tag (P : wire_record -> Prop) (rs : list wire_record)
    (i : nat) :
  Forall P rs -> (i < length rs)%nat -> P (nth i rs Pad).
Proof.
  intros H Hi. rewrite Forall_forall in H. apply H. now apply nth_In.
Qed.

(** The search for a plain tag in memory that holds records none of which
    carries the tag, followed by a record that does. *)
Lemma find_encoded_found (dm : data_model) (m : memory) (fuel : nat)
    (data : addr) (len : Z) (pre : list wire_record) (T : Z)
    (pl rest : list Z) :
  Forall wf_record pre ->
  wf_record (Opt T pl) ->
  Forall (fun r => record_tag r <> T) pre ->
  mem_holds m data (encode (pre ++ [Opt T pl]) ++ rest) = true ->
  0 <= len <= SSIZE_MAX dm ->
  Z.of_nat (length (encode (pre ++ [Opt T pl]))) <= len ->
  (Z.to_nat len < fuel)%nat ->
  result (find_dhcp_option_raw dm fuel T data len m)
  = Some (Some (data + Z.of_nat (length (encode pre)))).
Proof.
  intros Hpre HT Hne H Hlen Hfit Hfuel.
  rewrite encode_app, <- app_assoc in H.
  destruct (encode_walk m pre _ data Hpre H) as [Hend Htags].
  apply mem_holds_app in H. destruct H as [_ H].
  rewrite encode_single in H.
  destruct (option_len_at_encoded m _ (Opt T pl) rest HT H) as [Htag Hol].
  rewrite encode_app, length_app, encode_single in Hfit.
  rewrite <- Hend in *.
  destruct HT as (HT & _).
  apply (scan_returns dm m T data len
           (mk_scan_state T (record_at m data (length pre))
              (data + len - record_at m data (length pre))));
    try assumption.
  - apply walk_reaches_init; [assumption| |lia].
    intros i Hi. rewrite Htags by assumption.
    apply skipped_plain; [assumption| |].
    + now apply Forall_nth_tag.
    + now apply (Forall_nth_tag (fun r => record_tag r <> T)).
  - rewrite step_at_outcome. simpl.
    apply step_outcome_match; [lia| |lia|assumption].
    rewrite Htag. simpl. unfold DHCP_END. lia.
Qed.

(** The search in memory that holds records none of which carries the tag
    looked for or its encapsulator, and that make up the whole block. *)
Lemma find_encoded_absent (dm : data_model) (m : memory) (fuel : nat)
    (tag : Z) (data : addr) (rs : list wire_record) (rest : list Z) :
  Forall wf_record rs ->
  Forall (fun r => skipped tag (record_tag r)) rs ->
  mem_holds m data (encode rs ++ rest) = true ->
  0 <= Z.of_nat (length (encode rs)) <= SSIZE_MAX dm ->
  (length (encode rs) < fuel)%nat ->
  result (find_dhcp_option_raw dm fuel tag data
            (Z.of_nat (length (encode rs))) m) = Some NULL.
Proof.
  intros Hwf Hskip H Hlen Hfuel.
  destruct (encode_walk m rs _ data Hwf H) as [Hend Htags].
  apply (scan_returns dm m tag data _
           (mk_scan_state tag (record_at m data (length rs))
              (data + Z.of_nat (length (encode rs))
               - record_at m data (length rs))));
    try assumption.
  - apply walk_reaches_init; [assumption| |lia].
    intros i Hi. rewrite Htags by assumption.
    now apply (Forall_nth_tag (fun r => skipped tag (record_tag r))).
  - rewrite step_at_outcome. simpl. rewrite Hend.
    replace (data + Z.of_nat (length (encode rs))
             - (data + Z.of_nat (length (encode rs)))) with 0 by lia.
    reflexivity.
  - lia.
Qed.

(** The numeric value of a record is the big-endian number of its payload
    modulo [2^w]. *)
Lemma dhcp_num_option_be (dm : data_model) (m : memory) (opt : addr) :
  dhcp_num_option dm m (Some opt)
  = be_value (payload m opt) mod 2 ^ long_bits dm.
Proof.
  unfold dhcp_num_option. rewrite num_loop_fold.
  change (map _ (seq 0 (Z.to_nat (load m (opt + OFF_LEN)))))
    with (payload m opt).
  rewrite (fold_num_step_spec dm (payload m opt) (payload_bytes m opt)).
  exact (fold_spec_be dm (payload m opt) (payload_bytes m opt) 0).
Qed.

(** X6: in a block that holds well-formed records of which the first with
    tag [T] comes after records with other tags, [find_dhcp_option_raw]
    returns the address of that record; the payload read there is the
    payload that was laid out, and [dhcp_num_option] gives its big-endian
    value modulo [2^w]. *)
Theorem X6_finds_encoded_record (dm : data_model) (m : memory) (fuel : nat)
    (data : addr) (len : Z) (pre : list wire_record) (T : Z)
    (pl rest : list Z) :
  Forall wf_record pre ->
  wf_record (Opt T pl) ->
  Forall (fun r => record_tag r <> T) pre ->
  mem_holds m data (encode (pre ++ [Opt T pl]) ++ rest) = true ->
  0 <= len <= SSIZE_MAX dm ->
  Z.of_nat (length (encode (pre ++ [Opt T pl]))) <= len ->
  (Z.to_nat len < fuel)%nat ->
  result (find_dhcp_option_raw dm fuel T data len m)
  = Some (Some (data + Z.of_nat (length (encode pre)))) /\
  payload m (data + Z.of_nat (length (encode pre))) = pl /\
  dhcp_num_option dm m (Some (data + Z.of_nat (length (encode pre))))
  = be_value pl mod 2 ^ long_bits dm.
Proof.
  intros Hpre HT Hne H Hlen Hfit Hfuel.
  assert (Hpay : payload m (data + Z.of_nat (length (encode pre))) = pl).
  { rewrite encode_app, <- app_assoc in H.
    apply mem_holds_app in H. destruct H as [_ H].
    rewrite encode_single in H.
    now apply (payload_encoded m _ T pl rest). }
  split; [now apply (find_encoded_found dm m fuel data len pre T pl rest)|].
  split; [assumption|].
  now rewrite dhcp_num_option_be, Hpay.
Qed.

Lemma X6_finds_encoded_record_witness :
  result (find_dhcp_option_raw ILP32 (scan_fuel 10) 60 100 10 padded_block)
  = Some (Some (100 + Z.of_nat (length (encode [Pad; Pad; Opt 53 [2]])))) /\
  payload padded_block
    (100 + Z.of_nat (length (encode [Pad; Pad; Opt 53 [2]]))) = [1; 2] /\
  dhcp_num_option ILP32 padded_block
    (Some (100 + Z.of_nat (length (encode [Pad; Pad; Opt 53 [2]]))))
  = be_value [1; 2] mod 2 ^ long_bits ILP32.
Proof.
  apply (X6_finds_encoded_record ILP32 padded_block (scan_fuel 10) 100 10
           [Pad; Pad; Opt 53 [2]] 60 [1; 2] [255]).
  - repeat constructor; simpl; lia.
  - repeat constructor; simpl; lia.
  - repeat constructor; simpl; unfold DHCP_PAD; lia.
  - vm_compute. reflexivity.
  - vm_compute. split; discriminate.
  - vm_compute. discriminate.
  - unfold scan_fuel. simpl. lia.
Defined.

(** ** Encapsulated records *)

(** The answer of the recursive call is the answer of the scan that makes
    it. *)
Lemma scan_recurse (dm : data_model) (m : memory) (tag : Z) (data : addr)
    (len : Z) (s : scan_state) (fuel fuel' : nat) (t : Z) (d : addr) (l : Z)
    (p : ptr) :
  0 <= len <= SSIZE_MAX dm ->
  scan_reaches dm m (scan_init dm tag data len) s ->
  step_at dm m s = Recurse t d l ->
  result (find_dhcp_option_raw dm fuel' t d l m) = Some p ->
  (Z.to_nat len < fuel)%nat ->
  result (find_dhcp_option_raw dm fuel tag data len m) = Some p.
Proof.
  intros Hlen Hreach Hstep Hinner Hfuel.
  apply (scan_result_from dm m tag data len s (S fuel') fuel p);
    try assumption.
  unfold run. rewrite scan_loop_S, <- step_at_outcome, Hstep. exact Hinner.
Qed.

(** The search for the composite tag of [E] and [S] in memory that holds
    records with other tags than [E] and then a record with tag [E]: its
    answer is that of the search for [S] in the payload of that record. *)
Lemma find_encoded_encap (dm : data_model) (m : memory) (fuel fuel' : nat)
    (data : addr) (len : Z) (pre : list wire_record) (E S : Z)
    (body rest : list Z) (p : ptr) :
  Forall wf_record pre ->
  Forall (fun r => record_tag r <> E) pre ->
  wf_record (Opt E body) ->
  0 <= S < 256 ->
  mem_holds m data (encode (pre ++ [Opt E body]) ++ rest) = true ->
  0 <= len <= SSIZE_MAX dm ->
  Z.of_nat (length (encode (pre ++ [Opt E body]))) <= len ->
  (Z.to_nat len < fuel)%nat ->
  result (find_dhcp_option_raw dm fuel' S
            (data + Z.of_nat (length (encode pre)) + OFF_DATA)
            (Z.of_nat (length body)) m) = Some p ->
  result (find_dhcp_option_raw dm fuel (DHCP_ENCAP_OPT E S) data len m)
  = Some p.
Proof.
  intros Hpre Hne HE HS H Hlen Hfit Hfuel Hinner.
  rewrite encode_app, <- app_assoc in H.
  destruct (encode_walk m pre _ data Hpre H) as [Hend Htags].
  apply mem_holds_app in H. destruct H as [_ H].
  rewrite encode_single in H.
  destruct (option_len_at_encoded m _ (Opt E body) rest HE H) as [Htag Hol].
  assert (Hl : load m (data + Z.of_nat (length (encode pre)) + OFF_LEN)
               = Z.of_nat (length body)).
  { pose proof (mem_holds_nth m _ _ H 1%nat) as H1. simpl in H1.
    apply H1. lia. }
  rewrite encode_app, length_app, encode_single in Hfit.
  rewrite <- Hend in *.
  destruct HE as (HE & _).
  simpl record_tag in Htag.
  apply (scan_recurse dm m _ data len
           (mk_scan_state (DHCP_ENCAP_OPT E S)
              (record_at m data (length pre))
              (data + len - record_at m data (length pre)))
           fuel fuel' S (record_at m data (length pre) + OFF_DATA)
           (Z.of_nat (length body)) p);
    try assumption.
  - apply walk_reaches_init; [assumption| |lia].
    intros i Hi. rewrite Htags by assumption.
    apply skipped_composite; [assumption|assumption| |].
    + now apply Forall_nth_tag.
    + now apply (Forall_nth_tag (fun r => record_tag r <> E)).
  - rewrite step_at_outcome. simpl.
    rewrite <- Hl.
    rewrite step_outcome_encap.
    + now rewrite DHCP_ENCAPSULATED_ENCAP_OPT.
    + lia.
    + rewrite Htag. unfold DHCP_END. lia.
    + lia.
    + rewrite Htag. intros Heq.
      pose proof (DHCP_ENCAPSULATOR_ENCAP_OPT E S HS) as Hen.
      rewrite <- Heq, DHCP_ENCAPSULATOR_plain in Hen by lia. lia.
    + rewrite DHCP_ENCAPSULATOR_ENCAP_OPT by assumption. lia.
    + now rewrite DHCP_ENCAPSULATOR_ENCAP_OPT.
Qed.

Lemma mem_holds_body (m : memory) (a : addr) (t : Z) (body rest : list Z) :
  mem_holds m a (encode_record (Opt t body) ++ rest) = true ->
  mem_holds m (a + OFF_DATA) (body ++ rest) = true.
Proof.
  intros H.
  change (encode_record (Opt t body) ++ rest)
    with ([t; Z.of_nat (length body)] ++ (body ++ rest)) in H.
  apply mem_holds_app in H. exact (proj2 H).
Qed.

Lemma mem_holds_record (m : memory) (data : addr) (pre : list wire_record)
    (r : wire_record) (rest : list Z) :
  mem_holds m data (encode (pre ++ [r]) ++ rest) = true ->
  mem_holds m (data + Z.of_nat (length (encode pre)))
    (encode_record r ++ rest) = true.
Proof.
  intros H. rewrite encode_app, <- app_assoc, encode_single in H.
  apply mem_holds_app in H. exact (proj2 H).
Qed.

(** X7: for the composite tag of [E] and [S], in a block that holds
    well-formed records of which the first with tag [E] has a payload that
    itself holds records, the first with tag [S] among them,
    [find_dhcp_option_raw] returns the address of that nested record. *)
Theorem X7_finds_nested_record (dm : data_model) (m : memory) (fuel : nat)
    (data : addr) (len : Z) (pre ipre : list wire_record) (E S : Z)
    (pl irest rest : list Z) :
  Forall wf_record pre ->
  Forall (fun r => record_tag r <> E) pre ->
  wf_record (Opt E (encode (ipre ++ [Opt S pl]) ++ irest)) ->
  Forall wf_record ipre ->
  wf_record (Opt S pl) ->
  Forall (fun r => record_tag r <> S) ipre ->
  mem_holds m data
    (encode (pre ++ [Opt E (encode (ipre ++ [Opt S pl]) ++ irest)]) ++ rest)
  = true ->
  0 <= len <= SSIZE_MAX dm ->
  Z.of_nat
    (length (encode (pre ++ [Opt E (encode (ipre ++ [Opt S pl]) ++ irest)])))
  <= len ->
  (Z.to_nat len < fuel)%nat ->
  result (find_dhcp_option_raw dm fuel (DHCP_ENCAP_OPT E S) data len m)
  = Some (Some (data + Z.of_nat (length (encode pre)) + OFF_DATA
                + Z.of_nat (length (encode ipre)))).
Proof.
  intros Hpre HneE HE Hipre HS HneS H Hlen Hfit Hfuel.
  pose proof HE as (_ & Hbody & _).
  pose proof HS as (HSr & _).
  pose proof (SSIZE_MAX_large dm) as Hmax.
  apply (find_encoded_encap dm m fuel
           (scan_fuel (Z.of_nat (length (encode (ipre ++ [Opt S pl]) ++ irest))))
           data len pre E S (encode (ipre ++ [Opt S pl]) ++ irest) rest);
    try assumption; [lia|].
  apply (find_encoded_found dm m _ _ _ ipre S pl (irest ++ rest));
    try assumption.
  - rewrite app_assoc. apply (mem_holds_body m _ E).
    now apply mem_holds_record.
  - lia.
  - rewrite length_app. lia.
  - unfold scan_fuel. lia.
Qed.

Lemma X7_finds_nested_record_witness :
  result (find_dhcp_option_raw ILP32 (scan_fuel 13) (DHCP_ENCAP_OPT 43 1)
            100 13 nested_block)
  = Some (Some (100 + Z.of_nat (length (encode [Pad])) + OFF_DATA
                + Z.of_nat (length (encode [Opt 7 [9]])))).
Proof.
  apply (X7_finds_nested_record ILP32 nested_block (scan_fuel 13) 100 13
           [Pad] [Opt 7 [9]] 43 1 [5] [] [1; 1; 8; 255]).
  - repeat constructor.
  - repeat constructor. simpl. unfold DHCP_PAD. lia.
  - simpl. repeat constructor; lia.
  - repeat constructor; simpl; lia.
  - repeat constructor; simpl; lia.
  - repeat constructor. simpl. lia.
  - vm_compute. reflexivity.
  - vm_compute. split; discriminate.
  - vm_compute. discriminate.
  - unfold scan_fuel. simpl. lia.
Defined.

(** X8: for the composite tag of [E] and [S], when the payload of the first
    record with tag [E] holds well-formed records none of which has tag
    [S], [find_dhcp_option_raw] returns [NULL], whatever follows that
    record in the block: a later record with tag [S], or a later record
    with tag [E] that holds one, is not looked at. *)
Theorem X8_only_first_encapsulator_searched (dm : data_model) (m : memory)
    (fuel : nat) (data : addr) (len : Z) (pre irs : list wire_record)
    (E S : Z) (rest : list Z) :
  Forall wf_record pre ->
  Forall (fun r => record_tag r <> E) pre ->
  wf_record (Opt E (encode irs)) ->
  Forall wf_record irs ->
  0 < S < 255 ->
  Forall (fun r => record_tag r <> S) irs ->
  mem_holds m data (encode (pre ++ [Opt E (encode irs)]) ++ rest) = true ->
  0 <= len <= SSIZE_MAX dm ->
  Z.of_nat (length (encode (pre ++ [Opt E (encode irs)]))) <= len ->
  (Z.to_nat len < fuel)%nat ->
  result (find_dhcp_option_raw dm fuel (DHCP_ENCAP_OPT E S) data len m)
  = Some NULL.
Proof.
  intros Hpre HneE HE Hirs HS HneS H Hlen Hfit Hfuel.
  pose proof HE as (_ & Hbody & _).
  pose proof (SSIZE_MAX_large dm) as Hmax.
  apply (find_encoded_encap dm m fuel (scan_fuel (Z.of_nat (length (encode irs))))
           data len pre E S (encode irs) rest);
    try assumption; [lia|].
  apply (find_encoded_absent dm m _ S _ irs rest);
    try assumption.
  - rewrite Forall_forall in *. intros r Hr.
    apply skipped_plain; auto.
  - apply (mem_holds_body m _ E). now apply mem_holds_record.
  - lia.
  - unfold scan_fuel. lia.
Qed.

Lemma X8_only_first_encapsulator_searched_witness :
  result (find_dhcp_option_raw ILP32 (scan_fuel 9) 8 100 9 late_block)
  = Some (Some 105) /\
  result (find_dhcp_option_raw ILP32 (scan_fuel 9) (DHCP_ENCAP_OPT 43 8)
            100 9 late_block) = Some NULL.
Proof.
  split; [vm_compute; reflexivity|].
  apply (X8_only_first_encapsulator_searched ILP32 late_block (scan_fuel 9)
           100 9 [] [Opt 7 [9]] 43 8 [8; 1; 5; 255]).
  - constructor.
  - constructor.
  - simpl. repeat constructor; lia.
  - repeat constructor; simpl; lia.
  - lia.
  - repeat constructor; simpl; lia.
  - vm_compute. reflexivity.
  - vm_compute. split; discriminate.
  - vm_compute. discriminate.
  - unfold scan_fuel. simpl. lia.
Defined.

(** ** More on numeric values *)

Lemma be_fold_shift (bs : list Z) :
  forall v : Z,
    fold_left (fun value b => value * 256 + b) bs v
    = v * 256 ^ Z.of_nat (length bs) + be_value bs.
Proof.
  unfold be_value.
  induction bs as [|b bs IH]; intros v.
  - simpl. lia.
  - cbn [fold_left length]. rewrite IH, (IH (0 * 256 + b)).
    rewrite Nat2Z.inj_succ, Z.pow_succ_r by lia. lia.
Qed.

Lemma be_value_app (xs ys : list Z) :
  be_value (xs ++ ys)
  = be_value xs * 256 ^ Z.of_nat (length ys) + be_value ys.
Proof.
  unfold be_value at 1. rewrite fold_left_app. apply be_fold_shift.
Qed.

Lemma be_value_bound (bs : list Z) :
  Forall (fun b => 0 <= b < 256) bs ->
  0 <= be_value bs < 256 ^ Z.of_nat (length bs).
Proof.
  induction bs as [|b bs IH] using rev_ind; intros Hbs.
  - simpl. unfold be_value. simpl. lia.
  - apply Forall_app in Hbs. destruct Hbs as [Hbs Hb].
    inversion Hb as [|? ? Hb0 _]; subst.
    specialize (IH Hbs).
    rewrite be_value_app, length_app. simpl length.
    replace (be_value [b]) with b by (unfold be_value; simpl; lia).
    rewrite Nat2Z.inj_add, Z.pow_add_r by lia.
    change (256 ^ Z.of_nat 1) with 256. nia.
Qed.

Lemma pow_256 (n : Z) : 0 <= n -> 256 ^ n = 2 ^ (8 * n).
Proof.
  intros Hn. change 256 with (2 ^ 8). now rewrite <- Z.pow_mul_r by lia.
Qed.

Lemma long_bits_bytes (dm : data_model) :
  long_bits dm = 8 * (long_bits dm / 8) /\ 0 < long_bits dm / 8.
Proof. destruct dm; split; reflexivity. Qed.

(** X9: the value [dhcp_num_option] returns is the big-endian number of the
    last [w / 8] payload bytes, all bytes before them being shifted out of
    the accumulator; a payload of at most [w / 8] bytes is decoded without
    loss. *)
Theorem X9_numeric_value_of_last_bytes (dm : data_model) (m : memory)
    (opt : addr) :
  dhcp_num_option dm m (Some opt)
  = be_value (skipn (length (payload m opt) - Z.to_nat (long_bits dm / 8))
                (payload m opt)) /\
  (8 * load m (opt + OFF_LEN) <= long_bits dm ->
   dhcp_num_option dm m (Some opt) = be_value (payload m opt)).
Proof.
  destruct (long_bits_bytes dm) as [Hw Hw8].
  remember (long_bits dm / 8) as q eqn:Hq. clear Hq.
  set (k := (length (payload m opt) - Z.to_nat q)%nat).
  assert (Hlast :
            dhcp_num_option dm m (Some opt)
            = be_value (skipn k (payload m opt))).
  { rewrite dhcp_num_option_be.
    pose proof (payload_bytes m opt) as Hbytes.
    rewrite <- (firstn_skipn k (payload m opt)) in Hbytes.
    apply Forall_app in Hbytes. destruct Hbytes as [_ Hbytes].
    pose proof (be_value_bound _ Hbytes) as Hbound.
    assert (Hlen : (length (skipn k (payload m opt))
                    <= Z.to_nat q)%nat).
    { rewrite length_skipn. unfold k. lia. }
    assert (Hpow : 256 ^ Z.of_nat (length (skipn k (payload m opt)))
                   <= 2 ^ long_bits dm).
    { rewrite pow_256 by lia. apply Z.pow_le_mono_r; [lia|].
      clear - Hlen Hw Hw8. lia. }
    rewrite <- (firstn_skipn k (payload m opt)) at 1.
    rewrite be_value_app.
    destruct (Nat.le_gt_cases (length (payload m opt)) (Z.to_nat q))
      as [Hshort|Hlong].
    - assert (Hk : k = O) by (unfold k; lia).
      clearbody k. subst k. simpl firstn. simpl skipn in *.
      replace (be_value []) with 0 by reflexivity.
      rewrite Z.mul_0_l, Z.add_0_l.
      apply Z.mod_small. lia.
    - assert (Hfull : Z.of_nat (length (skipn k (payload m opt)))
                      = q).
      { rewrite length_skipn. unfold k. lia. }
      rewrite Hfull, pow_256, <- Hw by lia.
      rewrite Z.add_comm, Z.mod_add by lia.
      apply Z.mod_small. rewrite Hfull, pow_256, <- Hw in Hbound by lia.
      exact Hbound. }
  split; [exact Hlast|].
  intros Hshort. rewrite Hlast. f_equal.
  replace k with O; [reflexivity|].
  unfold k. rewrite payload_length.
  pose proof (load_range m (opt + OFF_LEN)). lia.
Qed.

Lemma X9_numeric_value_of_last_bytes_witness :
  dhcp_num_option ILP32 padded_block (Some 105) = be_value [1; 2] /\
  dhcp_num_option ILP32 (mem_of_list 100 [53; 5; 9; 1; 2; 3; 4]) (Some 100)
  = be_value [1; 2; 3; 4].
Proof.
  split.
  - destruct (X9_numeric_value_of_last_bytes ILP32 padded_block 105)
      as [_ Hshort].
    etransitivity; [apply Hshort; vm_compute; discriminate|].
    vm_compute. reflexivity.
  - destruct (X9_numeric_value_of_last_bytes ILP32
                (mem_of_list 100 [53; 5; 9; 1; 2; 3; 4]) 100) as [Hlast _].
    etransitivity; [apply Hlast|]. vm_compute. reflexivity.
Defined.

(** X10: the value [dhcp_num_option] returns fits the accumulator: it lies
    between 0 and [2^w - 1], for [NULL] and for every record. *)
Theorem X10_numeric_value_range (dm : data_model) (m : memory) (opt : ptr) :
  0 <= dhcp_num_option dm m opt < 2 ^ long_bits dm.
Proof.
  destruct opt as [o|].
  - rewrite dhcp_num_option_be. apply Z.mod_pos_bound.
    apply (SIZE_MODULUS_pos dm).
  - simpl. split; [lia|]. apply (SIZE_MODULUS_pos dm).
Qed.

(** ** More on the registry *)

Lemma find_in_blocks_inv (dm : data_model) (fuel : nat) (tag : Z)
    (m : memory) (blks : addr -> dhcp_option_block.t) (p : addr) :
  forall l : list_head,
    find_in_blocks dm fuel tag m blks l = Some (Some p) ->
    exists (pre : list_head) (b : addr) (post : list_head),
      l = pre ++ b :: post /\
      (forall b', In b' pre ->
                  scan_block dm fuel tag (mk_state m blks []) b' = Some NULL)
      /\ scan_block dm fuel tag (mk_state m blks []) b = Some (Some p).
Proof.
  induction l as [|e l IH]; intros Hfind; [discriminate|].
  rewrite find_dhcp_option_unfold in Hfind. unfold scan_block in *.
  simpl in *.
  destruct (result (find_dhcp_option_raw dm fuel tag
                      (dhcp_option_block.data (blks e))
                      (dhcp_option_block.len (blks e)) m))
    as [[q|]|] eqn:He; [| |discriminate].
  - exists [], e, l. split; [reflexivity|]. split; [intros b' []|].
    now rewrite He.
  - destruct (IH Hfind) as (pre & b & post & -> & Hpre & Hb).
    exists (e :: pre), b, post. split; [reflexivity|].
    split; [|assumption].
    intros b' [<-|Hin]; [assumption|now apply Hpre].
Qed.

Lemma find_in_blocks_null_inv (dm : data_model) (fuel : nat) (tag : Z)
    (m : memory) (blks : addr -> dhcp_option_block.t) :
  forall l : list_head,
    find_in_blocks dm fuel tag m blks l = Some NULL ->
    forall b, In b l ->
              scan_block dm fuel tag (mk_state m blks []) b = Some NULL.
Proof.
  induction l as [|e l IH]; intros Hfind b Hin; [destruct Hin|].
  rewrite find_dhcp_option_unfold in Hfind. unfold scan_block in *.
  simpl in *.
  destruct (result (find_dhcp_option_raw dm fuel tag
                      (dhcp_option_block.data (blks e))
                      (dhcp_option_block.len (blks e)) m))
    as [[q|]|] eqn:He; try discriminate.
  destruct Hin as [<-|Hin]; [assumption|now apply IH].
Qed.

(** X11: an answer of [find_dhcp_option] other than [NULL] is the answer of
    the scan of a registered block, the first in the order of the registry
    whose scan is not [NULL], and it points into the data of that block;
    the answer [NULL] means that the scan of every registered block gave
    [NULL]. *)
Theorem X11_find_dhcp_option_answers (dm : data_model) (fuel : nat)
    (tag : Z) (st : state) :
  (forall p : addr,
      find_dhcp_option dm fuel tag st = Some (Some p) ->
      exists (pre : list_head) (b : addr) (post : list_head),
        option_blocks st = pre ++ b :: post /\
        (forall b', In b' pre -> scan_block dm fuel tag st b' = Some NULL) /\
        scan_block dm fuel tag st b = Some (Some p) /\
        (0 <= dhcp_option_block.len (blocks st b) <= SSIZE_MAX dm ->
         dhcp_option_block.data (blocks st b) <= p
         < dhcp_option_block.data (blocks st b)
           + dhcp_option_block.len (blocks st b))) /\
  (find_dhcp_option dm fuel tag st = Some NULL ->
   forall b, In b (option_blocks st) ->
             scan_block dm fuel tag st b = Some NULL).
Proof.
  split.
  - intros p Hfind. unfold find_dhcp_option in Hfind.
    destruct (find_in_blocks_inv dm fuel tag _ _ p _ Hfind)
      as (pre & b & post & Hl & Hpre & Hb).
    exists pre, b, post.
    split; [assumption|]. split; [exact Hpre|]. split; [exact Hb|].
    intros Hlen. unfold scan_block, find_dhcp_option_raw in Hb.
    simpl in Hb. rewrite to_ssize_id in Hb by lia.
    apply scan_loop_found in Hb; [|assumption].
    pose proof (option_len_at_range (mem st) p). lia.
  - intros Hfind. unfold find_dhcp_option in Hfind.
    exact (find_in_blocks_null_inv dm fuel tag _ _ _ Hfind).
Qed.

Lemma X11_find_dhcp_option_answers_witness :
  exists (pre : list_head) (b : addr) (post : list_head),
    option_blocks two_registered = pre ++ b :: post /\
    scan_block ILP32 (scan_fuel 4) 53 two_registered b = Some (Some 200).
Proof.
  destruct (X11_find_dhcp_option_answers ILP32 (scan_fuel 4) 53
              two_registered) as [Hfound _].
  destruct (Hfound 200) as (pre & b & post & Hl & _ & Hb & _).
  - vm_compute. reflexivity.
  - exists pre, b, post. now split.
Defined.

(** X12: [find_dhcp_option] comes to an answer when every registered block
    has a length that an [ssize_t] holds: a number of turns above the
    greatest length is enough for all the scans. *)
Theorem X12_find_dhcp_option_terminates (dm : data_model) (fuel : nat)
    (tag : Z) (st : state) :
  (forall b, In b (option_blocks st) ->
             0 <= dhcp_option_block.len (blocks st b) <= SSIZE_MAX dm /\
             (Z.to_nat (dhcp_option_block.len (blocks st b)) < fuel)%nat) ->
  exists r : ptr, find_dhcp_option dm fuel tag st = Some r.
Proof.
  unfold find_dhcp_option.
  induction (option_blocks st) as [|e l IH]; intros Hall.
  - now exists NULL.
  - rewrite find_dhcp_option_unfold. unfold scan_block. simpl.
    destruct (Hall e (or_introl eq_refl)) as [Hlen Hfuel].
    destruct (scan_loop_terminates dm (mem st) fuel tag
                (dhcp_option_block.data (blocks st e))
                (to_ssize dm (dhcp_option_block.len (blocks st e))))
      as [r Hr].
    { rewrite to_ssize_id by lia. lia. }
    { rewrite to_ssize_id by lia. lia. }
    unfold find_dhcp_option_raw. rewrite Hr.
    destruct r as [p|]; [now exists (Some p)|].
    apply IH. intros b Hin. apply Hall. now right.
Qed.

Lemma X12_find_dhcp_option_terminates_witness :
  exists r : ptr,
    find_dhcp_option ILP32 (scan_fuel 4) 54 two_registered = Some r.
Proof.
  apply X12_find_dhcp_option_terminates.
  intros b Hin.
  assert (Hb : b = 2 \/ b = 1) by (simpl in Hin; intuition congruence).
  destruct Hb as [-> | ->]; vm_compute; repeat split; try discriminate; lia.
Defined.

Lemma find_in_blocks_del (dm : data_model) (fuel : nat) (tag : Z)
    (m : memory) (blks : addr -> dhcp_option_block.t) (b : addr) :
  scan_block dm fuel tag (mk_state m blks []) b = Some NULL ->
  forall l : list_head,
    find_in_blocks dm fuel tag m blks (list_del b l)
    = find_in_blocks dm fuel tag m blks l.
Proof.
  intros Hb. induction l as [|e l IH]; [reflexivity|].
  unfold list_del in *. cbn [filter].
  destruct (Z.eqb_spec e b) as [->|Hne]; cbn [negb].
  - rewrite IH, (find_dhcp_option_unfold dm fuel tag m blks l b).
    unfold scan_block in *. simpl in *. now rewrite Hb.
  - rewrite !find_dhcp_option_unfold. unfold scan_block. simpl.
    now rewrite IH.
Qed.

(** X13: after [unregister_dhcp_options] for a block, an answer of
    [find_dhcp_option] other than [NULL] comes from the scan of another
    registered block; and when the scan of the block gave [NULL] anyway,
    taking it out changes no answer. *)
Theorem X13_unregistered_block_not_searched (dm : data_model) (fuel : nat)
    (tag : Z) (st : state) (b : addr) :
  (forall p : addr,
      find_dhcp_option dm fuel tag (unregister_dhcp_options b st)
      = Some (Some p) ->
      exists b', b' <> b /\ In b' (option_blocks st) /\
                 scan_block dm fuel tag st b' = Some (Some p)) /\
  (scan_block dm fuel tag st b = Some NULL ->
   find_dhcp_option dm fuel tag (unregister_dhcp_options b st)
   = find_dhcp_option dm fuel tag st).
Proof.
  split.
  - intros p Hfind. unfold find_dhcp_option, unregister_dhcp_options in Hfind.
    simpl in Hfind.
    destruct (find_in_blocks_inv dm fuel tag _ _ p _ Hfind)
      as (pre & b' & post & Hl & _ & Hb').
    assert (Hin : In b' (list_del b (option_blocks st))).
    { rewrite Hl. apply in_or_app. right. now left. }
    unfold list_del in Hin. apply filter_In in Hin.
    destruct Hin as [Hin Hne].
    exists b'. split; [|now split].
    destruct (Z.eqb_spec b' b); [discriminate|assumption].
  - intros Hb. unfold find_dhcp_option, unregister_dhcp_options. simpl.
    now apply find_in_blocks_del.
Qed.

Lemma X13_unregistered_block_not_searched_witness :
  find_dhcp_option ILP32 (scan_fuel 4) 53 two_registered = Some (Some 200) /\
  find_dhcp_option ILP32 (scan_fuel 4) 53
    (unregister_dhcp_options 2 two_registered) = Some (Some 100) /\
  exists b', b' <> 2 /\ In b' (option_blocks two_registered) /\
             scan_block ILP32 (scan_fuel 4) 53 two_registered b'
             = Some (Some 100).
Proof.
  split; [vm_compute; reflexivity|].
  split; [vm_compute; reflexivity|].
  destruct (X13_unregistered_block_not_searched ILP32 (scan_fuel 4) 53
              two_registered 2) as [Hother _].
  apply Hother. vm_compute. reflexivity.
Defined.

(** ** The record that ends with the block *)

(** C5: when the walk over the bytes of the block passes [k] records that
    carry neither the end marker nor the tag looked for nor its
    encapsulator, and the next record, not the end marker, has an on-wire
    length that ends exactly where the block ends, then the scan comes to
    that record with exactly its length remaining, the turn there does not
    end the scan for want of bytes, and the record is returned if its tag
    is the one looked for; if its tag is the encapsulator of a composite
    tag, its payload is searched. *)
Theorem C5_record_ending_at_boundary (dm : data_model) (m : memory)
    (tag : Z) (data : addr) (len : Z) (k : nat) (fuel : nat) :
  0 <= len <= SSIZE_MAX dm ->
  (forall i : nat,
      (i < k)%nat -> skipped tag (load m (record_at m data i + OFF_TAG))) ->
  load m (record_at m data k + OFF_TAG) <> DHCP_END ->
  record_at m data k + option_len_at m (record_at m data k) = data + len ->
  (Z.to_nat len < fuel)%nat ->
  scan_reaches dm m (scan_init dm tag data len)
    (mk_scan_state tag (record_at m data k)
       (option_len_at m (record_at m data k))) /\
  step_at dm m
    (mk_scan_state tag (record_at m data k)
       (option_len_at m (record_at m data k))) <> Return NULL /\
  (load m (record_at m data k + OFF_TAG) = tag ->
   result (find_dhcp_option_raw dm fuel tag data len m)
   = Some (Some (record_at m data k))) /\
  (load m (record_at m data k + OFF_TAG) <> tag ->
   DHCP_ENCAPSULATOR tag <> 0 ->
   load m (record_at m data k + OFF_TAG) = DHCP_ENCAPSULATOR tag ->
   forall fuel' : nat,
     (Z.to_nat (load m (record_at m data k + OFF_LEN)%Z) < fuel')%nat ->
     result (find_dhcp_option_raw dm fuel tag data len m)
     = result (find_dhcp_option_raw dm fuel' (DHCP_ENCAPSULATED tag)
                 (record_at m data k + OFF_DATA)
                 (load m (record_at m data k + OFF_LEN)) m)).
Proof.
  intros Hlen Hskip He Hlast Hfuel.
  pose proof (option_len_at_range m (record_at m data k)) as Hol.
  pose proof (record_at_ge m k data) as Hge.
  pose proof (SSIZE_MAX_large dm) as Hmax.
  assert (Hreach : scan_reaches dm m (scan_init dm tag data len)
                     (mk_scan_state tag (record_at m data k)
                        (option_len_at m (record_at m data k)))).
  { pose proof (walk_reaches_init dm m tag k data len Hlen Hskip
                  ltac:(lia)) as Hwalk.
    replace (data + len - record_at m data k)
      with (option_len_at m (record_at m data k)) in Hwalk by lia.
    exact Hwalk. }
  split; [exact Hreach|].
  split; [|split].
  - rewrite step_at_outcome. simpl. unfold step_outcome.
    rewrite remaining_no_wrap by lia.
    destruct (Z.eqb_spec (option_len_at m (record_at m data k)) 0); [lia|].
    destruct (Z.eqb_spec (load m (record_at m data k + OFF_TAG)) DHCP_END);
      [contradiction|].
    destruct (Z.ltb_spec (option_len_at m (record_at m data k)
                          - option_len_at m (record_at m data k)) 0); [lia|].
    destruct (load m (record_at m data k + OFF_TAG) =? tag); [discriminate|].
    destruct (_ && _); discriminate.
  - intros Htag.
    apply (scan_returns dm m tag data len _ fuel (Some (record_at m data k))
             Hlen Hreach); [|assumption].
    rewrite step_at_outcome. simpl.
    apply step_outcome_match; [lia|assumption|lia|assumption].
  - intros Hne Hz Hen fuel' Hfuel'.
    pose proof (load_range m (record_at m data k + OFF_LEN)) as Hl.
    destruct (scan_loop_terminates dm m fuel' (DHCP_ENCAPSULATED tag)
                (record_at m data k + OFF_DATA)
                (to_ssize dm (load m (record_at m data k + OFF_LEN))))
      as [p Hp].
    { rewrite to_ssize_id by lia. lia. }
    { rewrite to_ssize_id by lia. lia. }
    unfold find_dhcp_option_raw at 2. rewrite Hp.
    apply (scan_recurse dm m tag data len _ fuel fuel'
             (DHCP_ENCAPSULATED tag) (record_at m data k + OFF_DATA)
             (load m (record_at m data k + OFF_LEN)) p Hlen Hreach);
      [|exact Hp|assumption].
    rewrite step_at_outcome. simpl.
    apply step_outcome_encap; try assumption; lia.
Qed.

Lemma C5_record_ending_at_boundary_witness :
  record_at boundary_block 100 1 = 102 /\
  102 + option_len_at boundary_block 102 = 100 + 5 /\
  result (find_dhcp_option_raw ILP32 (scan_fuel 5) 53 100 5 boundary_block)
  = Some (Some (record_at boundary_block 100 1)).
Proof.
  split; [vm_compute; reflexivity|].
  split; [vm_compute; reflexivity|].
  destruct (C5_record_ending_at_boundary ILP32 boundary_block 53 100 5 1
              (scan_fuel 5)) as (_ & _ & Hmatch & _).
  - vm_compute. split; discriminate.
  - intros i Hi. destruct i as [|i]; [|lia].
    repeat split; [vm_compute; discriminate|vm_compute; discriminate|].
    left. vm_compute. reflexivity.
  - vm_compute. discriminate.
  - vm_compute. reflexivity.
  - unfold scan_fuel. simpl. lia.
  - apply Hmatch. vm_compute. reflexivity.
Defined.

(** ** More on allocation *)


Lemma load_store_bytes_other (bs : list Z) :
  forall (m : memory) (a x : addr),
    x < a \/ a + Z.of_nat (length bs) <= x ->
    load (store_bytes m a bs) x = load m x.
Proof.
  induction bs as [|b bs IH]; intros m a x Hx; [reflexivity|].
  cbn [store_bytes]. cbn [length] in Hx.
  rewrite IH by lia. apply load_store_other. lia.
Qed.

Lemma word_bytes_length (dm : data_model) (v : Z) :
  Z.of_nat (length (word_bytes dm v)) = long_bits dm / 8.
Proof.
  unfold word_bytes. rewrite length_map, length_seq.
  destruct dm; reflexivity.
Qed.

Lemma load_store_word_other (dm : data_model) (m : memory) (a x : addr)
    (v : Z) :
  x < a \/ a + long_bits dm / 8 <= x ->
  load (store_word dm m a v) x = load m x.
Proof.
  intros Hx. unfold store_word. apply load_store_bytes_other.
  now rewrite word_bytes_length.
Qed.

(** The stores of [alloc_dhcp_options] change no byte outside the object:
    the two fields lie in the header and the end marker in the first data
    byte. *)
Lemma alloc_stores_frame (dm : data_model) (m : memory)
    (sizeof_options offsetof_data offsetof_len : Z) (options : addr)
    (len : Z) (x : addr) :
  0 <= offsetof_data ->
  offsetof_data + long_bits dm / 8 <= sizeof_options ->
  0 <= offsetof_len ->
  offsetof_len + long_bits dm / 8 <= sizeof_options ->
  0 <= len ->
  ~ (options <= x < options + sizeof_options + len) ->
  load
    (if len =? 0
     then store_word dm
            (store_word dm m (options + offsetof_data)
               (options + sizeof_options))
            (options + offsetof_len) len
     else store
            (store_word dm
               (store_word dm m (options + offsetof_data)
                  (options + sizeof_options))
               (options + offsetof_len) len)
            (options + sizeof_options + OFF_TAG) DHCP_END) x
  = load m x.
Proof.
  intros Hd0 Hd1 Hl0 Hl1 Hlen Hout.
  pose proof (long_bits_bytes dm) as [_ Hw8].
  assert (Hfields :
            load (store_word dm
                    (store_word dm m (options + offsetof_data)
                       (options + sizeof_options))
                    (options + offsetof_len) len) x = load m x).
  { rewrite !load_store_word_other; [reflexivity| |]; lia. }
  destruct (Z.eqb_spec len 0) as [Hz|Hz]; [assumption|].
  rewrite load_store_other; [assumption|]. unfold OFF_TAG. lia.
Qed.



Lemma find_in_blocks_ext (dm : data_model) (fuel : nat) (tag : Z)
    (m m' : memory) (blks blks' : addr -> dhcp_option_block.t) :
  forall l : list_head,
    (forall b, In b l ->
               blks' b = blks b /\
               result (find_dhcp_option_raw dm fuel tag
                         (dhcp_option_block.data (blks b))
                         (dhcp_option_block.len (blks b)) m')
               = result (find_dhcp_option_raw dm fuel tag
                           (dhcp_option_block.data (blks b))
                           (dhcp_option_block.len (blks b)) m)) ->
    find_in_blocks dm fuel tag m' blks' l
    = find_in_blocks dm fuel tag m blks l.
Proof.
  induction l as [|e l IH]; intros Hall; [reflexivity|].
  cbn [find_in_blocks].
  destruct (Hall e (or_introl eq_refl)) as [-> ->].
  rewrite IH; [reflexivity|].
  intros b Hin. apply Hall. now right.
Qed.

(** X15: a block that [alloc_dhcp_options] has just made holds no option:
    when it is registered, every answer of [find_dhcp_option] is what it was
    before, provided that the bytes of the new object, header and data, lie
    apart from the header and from the data of every registered block. *)
Theorem X15_fresh_block_hides_nothing (dm : data_model)
    (sizeof_options offsetof_data offsetof_len : Z)
    (malloc : Z -> ptr) (len : Z) (st : state) (options : addr) (fuel : nat)
    (tag : Z) :
  0 <= offsetof_data ->
  offsetof_data + long_bits dm / 8 <= sizeof_options ->
  0 <= offsetof_len ->
  offsetof_len + long_bits dm / 8 <= sizeof_options ->
  0 <= len ->
  malloc (to_size dm (sizeof_options + len)) = Some options ->
  (forall b, In b (option_blocks st) ->
             0 <= dhcp_option_block.len (blocks st b) <= SSIZE_MAX dm /\
             (options + sizeof_options + len
              <= dhcp_option_block.data (blocks st b) \/
              dhcp_option_block.data (blocks st b)
              + dhcp_option_block.len (blocks st b) <= options) /\
             (options + sizeof_options + len <= b \/
              b + sizeof_options <= options)) ->
  (0 < fuel)%nat ->
  find_dhcp_option dm fuel tag
    (register_dhcp_options options
       (snd (alloc_dhcp_options dm sizeof_options offsetof_data offsetof_len
               malloc len st)))
  = find_dhcp_option dm fuel tag st.
Proof.
  intros Hd0 Hd1 Hl0 Hl1 Hlen Hmalloc Hblocks Hfuel.
  pose proof (long_bits_bytes dm) as [_ Hw8].
  unfold find_dhcp_option, register_dhcp_options, alloc_dhcp_options,
    list_add.
  rewrite Hmalloc. cbn [fst snd mem blocks option_blocks].
  cbn [find_in_blocks]. rewrite Z.eqb_refl.
  cbn [dhcp_option_block.len dhcp_option_block.data].
  set (m2 := store_word dm
               (store_word dm (mem st) (options + offsetof_data)
                  (options + sizeof_options))
               (options + offsetof_len) len).
  set (m' := if len =? 0 then m2
             else store m2 (options + sizeof_options + OFF_TAG) DHCP_END).
  assert (Hnew : result (find_dhcp_option_raw dm fuel tag
                           (options + sizeof_options) len m') = Some NULL).
  { destruct fuel as [|fuel]; [lia|].
    unfold find_dhcp_option_raw. rewrite scan_loop_S.
    unfold m'. destruct (Z.eqb_spec len 0) as [->|Hnz].
    - rewrite to_ssize_id by (pose proof (SSIZE_MAX_large dm); lia).
      reflexivity.
    - rewrite step_outcome_end; [reflexivity|].
      apply load_store_same. unfold DHCP_END. lia. }
  rewrite Hnew.
  apply find_in_blocks_ext. intros b Hin.
  destruct (Hblocks b Hin) as (Hb & Hdata & Hhead).
  split.
  - destruct (Z.eqb_spec b options) as [->|Hne]; [lia|reflexivity].
  - unfold find_dhcp_option_raw. rewrite to_ssize_id by lia.
    apply scan_loop_agree; [assumption|].
    intros x Hx. unfold m', m2.
    apply alloc_stores_frame; try assumption. lia.
Qed.

Lemma X15_fresh_block_hides_nothing_witness :
  find_dhcp_option ILP32 (scan_fuel 4) 53
    (register_dhcp_options 1000
       (snd (alloc_dhcp_options ILP32 16 8 12 malloc_at_1000 8
               two_registered)))
  = find_dhcp_option ILP32 (scan_fuel 4) 53 two_registered.
Proof.
  apply (X15_fresh_block_hides_nothing ILP32 16 8 12 malloc_at_1000 8
           two_registered 1000 (scan_fuel 4) 53).
  - lia.
  - simpl. lia.
  - lia.
  - simpl. lia.
  - lia.
  - reflexivity.
  - intros b Hin.
    assert (Hb : b = 2 \/ b = 1) by (simpl in Hin; intuition congruence).
    destruct Hb as [-> | ->]; vm_compute;
      (split; [split; discriminate|]);
      (split; right; discriminate).
  - unfold scan_fuel. lia.
Defined.
